(** * A private blockchain for a star registry: model and properties

    The development follows [src/blockchain.js].  The ledger keeps its blocks
    in a JavaScript array; blocks are objects, handed around by reference, so
    the model keeps them in an object store and the chain holds references.
    A method of the ledger is a function on the world that leaves a settled
    promise.  The three collaborators the ledger does not implement itself
    (the SHA-256 digest, the wallet signature check and the system clock) are
    section variables; the class of blocks, whose file is not among the
    sources, is modelled from the specification. *)

From Stdlib Require Import ZArith Ascii String.
From stdpp Require Import base tactics option list strings relations.

Local Open Scope Z_scope.

(** ** JavaScript values the ledger computes with *)

(** Numbers: the ledger only ever holds integers (heights, second counts) or
    the not-a-number that [parseInt] answers on text without digits.  The
    model keeps an integer exactly.  A double does so up to 2^53, which
    covers every reading of a [Date]; for a longer run of digits in a
    challenge the double is the rounded value, and the one comparison made
    with it, against a clock reading, comes out the same. *)
Inductive JSNum : Type :=
| NaN
| Num (z : Z).

(** [x - y] on numbers. *)
Definition js_sub (x y : JSNum) : JSNum :=
  match x, y with
  | Num a, Num b => Num (a - b)
  | _, _ => NaN
  end.

(** [x > n] for a number [x] and an integer constant [n]: false on NaN. *)
Definition js_gt (x : JSNum) (n : Z) : bool :=
  match x with
  | Num a => n <? a
  | NaN => false
  end.

Module Str.

Definition is_digit (c : ascii) : bool :=
  (48 <=? nat_of_ascii c)%nat && (nat_of_ascii c <=? 57)%nat.

Definition digit_value (c : ascii) : Z := Z.of_nat (nat_of_ascii c) - 48.

Definition digit_char (d : Z) : ascii := ascii_of_nat (48 + Z.to_nat d).

(** White space that [parseInt] and the string-to-number conversion skip
    (tab, line feed, vertical tab, form feed, carriage return, space and
    the no-break space), over one-byte characters. *)
Definition is_space (c : ascii) : bool :=
  let n := nat_of_ascii c in
  ((9 <=? n)%nat && (n <=? 13)%nat) || (n =? 32)%nat || (n =? 160)%nat.

Fixpoint skip_spaces (s : string) : string :=
  match s with
  | String c s' => if is_space c then skip_spaces s' else s
  | EmptyString => s
  end.

(** The longest prefix of decimal digits, read as a number; [None] when the
    text does not start with a digit. *)
Fixpoint digits_value (acc : option Z) (s : string) : option Z :=
  match s with
  | String c s' =>
      if is_digit c
      then digits_value (Some (10 * default 0 acc + digit_value c)) s'
      else acc
  | EmptyString => acc
  end.

(** Whether the text is made of decimal digits only. *)
Fixpoint all_digits (s : string) : bool :=
  match s with
  | String c s' => is_digit c && all_digits s'
  | EmptyString => true
  end.

(** [s.split(sep)] for a one-character separator. *)
Fixpoint split (sep : ascii) (s : string) : list string :=
  match s with
  | EmptyString => [EmptyString]
  | String c s' =>
      if Ascii.eqb c sep then EmptyString :: split sep s'
      else match split sep s' with
           | field :: fields => String c field :: fields
           | [] => [String c EmptyString]
           end
  end.

(** [parts.join(sep)]. *)
Fixpoint join (sep : string) (parts : list string) : string :=
  match parts with
  | [] => EmptyString
  | [p] => p
  | p :: ps => p +:+ sep +:+ join sep ps
  end.

(** [s.slice(0, -3)]: the text without its last three characters, empty
    when it has three or fewer. *)
Definition slice_0_minus3 (s : string) : string :=
  String.substring 0 (String.length s - 3) s.

(** Decimal digits of a non-negative integer, most significant first. *)
Fixpoint digits_of (fuel : nat) (n : Z) (acc : string) : string :=
  let acc' := String (digit_char (n mod 10)) acc in
  match fuel with
  | O => acc'
  | S fuel' => if n <? 10 then acc' else digits_of fuel' (n / 10) acc'
  end.

(** [n.toString()] for an integer [n]. *)
Definition of_Z (n : Z) : string :=
  if n <? 0
  then String "-" (digits_of (Z.to_nat (Z.log2 (- n))) (- n) EmptyString)
  else digits_of (Z.to_nat (Z.log2 n)) n EmptyString.

End Str.

(** [Number.parseInt(x, 10)] on a value that is a string or [undefined]:
    the argument is turned into text ([undefined] reads "undefined"), leading
    white space and one sign are skipped, and the longest run of digits that
    follows is the result; no digit at all gives NaN. *)
Definition parseInt (x : option string) : JSNum :=
  let s := Str.skip_spaces (default "undefined"%string x) in
  let '(negative, body) :=
    match s with
    | String "-" s' => (true, s')
    | String "+" s' => (false, s')
    | _ => (false, s)
    end in
  match Str.digits_value None body with
  | Some v => Num (if negative then - v else v)
  | None => NaN
  end.

(** The conversion [-] applies to a string operand, on the texts
    [timestamp()] can produce: an optional minus sign followed by decimal
    digits.  The empty text converts to 0 and a lone sign to NaN. *)
Definition ToNumber (s : string) : JSNum :=
  match s with
  | EmptyString => Num 0
  | String "-" s' =>
      if Str.all_digits s'
      then match Str.digits_value None s' with Some v => Num (- v) | None => NaN end
      else NaN
  | _ =>
      if Str.all_digits s
      then match Str.digits_value None s with Some v => Num v | None => NaN end
      else NaN
  end.

(** JSON values: what a block's payload and a star are made of. *)
#[local] Set Warnings "-register-all".
Inductive JSON : Type :=
| JNull
| JBool (b : bool)
| JNum (z : Z)
| JStr (s : string)
| JArr (items : list JSON)
| JObj (props : list (string * JSON)).

Module Json.

Definition hex_digit (n : nat) : ascii :=
  if (n <? 10)%nat then ascii_of_nat (48 + n) else ascii_of_nat (87 + n).

Definition backslash : ascii := ascii_of_nat 92.
Definition dquote : ascii := ascii_of_nat 34.

(** One character of a string literal as [JSON.stringify] writes it: the
    quote and the backslash are escaped, control characters get their
    short escape or a [\u00XX] code. *)
Definition escape (c : ascii) : string :=
  let n := nat_of_ascii c in
  let short (x : ascii) := String backslash (String x EmptyString) in
  if (n =? 34)%nat then short dquote
  else if (n =? 92)%nat then short backslash
  else if (n =? 8)%nat then short "b"%char
  else if (n =? 12)%nat then short "f"%char
  else if (n =? 10)%nat then short "n"%char
  else if (n =? 13)%nat then short "r"%char
  else if (n =? 9)%nat then short "t"%char
  else if (n <? 32)%nat
       then String backslash
              (String "u" (String "0" (String "0"
                 (String (hex_digit (n / 16)) (String (hex_digit (n mod 16)) EmptyString)))))
  else String c EmptyString.

Fixpoint escape_all (s : string) : string :=
  match s with
  | String c s' => escape c +:+ escape_all s'
  | EmptyString => EmptyString
  end.

Definition quote (s : string) : string :=
  String dquote (escape_all s +:+ String dquote EmptyString).

(** [JSON.stringify(v)] *)
Fixpoint stringify (v : JSON) : string :=
  match v with
  | JNull => "null"
  | JBool true => "true"
  | JBool false => "false"
  | JNum z => Str.of_Z z
  | JStr s => quote s
  | JArr items => "[" +:+ Str.join "," (map stringify items) +:+ "]"
  | JObj props =>
      "{" +:+ Str.join "," (map (fun kv => quote (fst kv) +:+ ":" +:+ stringify (snd kv)) props)
          +:+ "}"
  end.

(** [v.key]: the property of an object, [undefined] ([None]) when [v] has
    no such property or is not an object. *)
Definition get (key : string) (v : JSON) : option JSON :=
  match v with
  | JObj props => snd <$> List.find (fun kv => String.eqb (fst kv) key) props
  | _ => None
  end.

(** [x === s] for a property read [x] and a string [s]. *)
Definition is_string (x : option JSON) (s : string) : bool :=
  match x with
  | Some (JStr s') => String.eqb s' s
  | _ => false
  end.

End Json.

(** ** Blocks *)

(** A reference to an object of the store. *)
Abbreviation loc := nat (only parsing).

Module Block.

(** Modelled from the spec: the file [block.js] that declares the class is
    not among the sources, so the properties of a block are those of the
    spec's Record (height, creation time, link to the predecessor, payload,
    own hash), under the names [blockchain.js] reads and writes them by;
    the payload property is named [body].  An empty hash or link is
    [null], here [None]. *)
Record t : Type := mk {
  height : Z;
  time : string;
  previousBlockHash : option string;
  body : JSON;
  hash : option string;
}.

Definition set_height (h : Z) (b : t) : t :=
  mk h (time b) (previousBlockHash b) (body b) (hash b).
Definition set_time (x : string) (b : t) : t :=
  mk (height b) x (previousBlockHash b) (body b) (hash b).
Definition set_previousBlockHash (p : option string) (b : t) : t :=
  mk (height b) (time b) p (body b) (hash b).
Definition set_body (d : JSON) (b : t) : t :=
  mk (height b) (time b) (previousBlockHash b) d (hash b).
Definition set_hash (h : option string) (b : t) : t :=
  mk (height b) (time b) (previousBlockHash b) (body b) h.

(** Modelled from the spec: [new Block({data})], the record Construct
    makes: the given payload, link and hash empty, height and creation
    time still to be assigned by the ledger. *)
Definition new (data : JSON) : t := mk 0 "" None data None.

Definition opt_string (x : option string) : JSON :=
  match x with
  | Some s => JStr s
  | None => JNull
  end.

(** The block as [JSON.stringify(block)] sees it: every property of the
    object, the hash included, with the value it holds at that moment. *)
Definition toJSON (b : t) : JSON :=
  JObj [ ("height"%string, JNum (height b));
         ("time"%string, JStr (time b));
         ("previousBlockHash"%string, opt_string (previousBlockHash b));
         ("body"%string, body b);
         ("hash"%string, opt_string (hash b)) ].

Section WithDigest.
Variable SHA256 : string -> string.

(** Modelled from the spec: [computeHash()] of the missing [block.js],
    the digest of the canonical encoding of the record's current height,
    creation time, link and payload, the hash property itself left out
    of the input (it is emptied before the record is encoded). *)
Definition computeHash (b : t) : string :=
  SHA256 (Json.stringify (toJSON (set_hash None b))).

(** Modelled from the spec: [validate()] of the missing [block.js]
    recomputes the hash over the current properties and compares it with
    the stored one. *)
Definition validate (b : t) : bool :=
  bool_decide (hash b = Some (computeHash b)).

End WithDigest.

(** Modelled from the spec: [getBData()] of the missing [block.js], the
    spec's decodePayload, returns the payload as it was given. *)
Definition getBData (b : t) : JSON := body b.

End Block.

(** ** The world the ledger runs in *)

(** The object store holds every block made by [new Block]; the ledger's
    [chain] array holds references into it, and so does any caller that kept
    a block it was given.  [clock] counts the readings of the system clock,
    [verified] records the calls made to the signature check. *)
Record World : Type := mkWorld {
  heap : list Block.t;
  chain : list loc;
  height : Z;
  clock : nat;
  verified : list (string * string * string);
}.

Definition set_heap (h : list Block.t) (w : World) : World :=
  mkWorld h (chain w) (height w) (clock w) (verified w).
Definition set_chain (c : list loc) (w : World) : World :=
  mkWorld (heap w) c (height w) (clock w) (verified w).
Definition set_height (h : Z) (w : World) : World :=
  mkWorld (heap w) (chain w) h (clock w) (verified w).
Definition set_clock (n : nat) (w : World) : World :=
  mkWorld (heap w) (chain w) (height w) n (verified w).
Definition set_verified (v : list (string * string * string)) (w : World) : World :=
  mkWorld (heap w) (chain w) (height w) (clock w) v.

(** The object a reference points to.  A reference always points to an
    allocated object; the default only makes the function total. *)
Definition deref (w : World) (l : loc) : Block.t :=
  default (Block.new JNull) (heap w !! l).

(** An assignment to properties of the object behind a reference, by the
    ledger or by any holder of the reference. *)
Definition mutate (l : loc) (f : Block.t -> Block.t) (w : World) : World :=
  set_heap (alter f l (heap w)) w.

(** How a promise settles. *)
Inductive Settled (A : Type) : Type :=
| Resolved (a : A)
| Rejected (message : string).
Arguments Resolved {A} a.
Arguments Rejected {A} message.

(** A method of the ledger: it runs on the world and leaves a settled
    promise. *)
Definition Promise (A : Type) : Type := World -> Settled A * World.

Definition resolve {A} (a : A) : Promise A := fun w => (Resolved a, w).
Definition reject {A} (message : string) : Promise A := fun w => (Rejected message, w).
Definition bind {A B} (m : Promise A) (k : A -> Promise B) : Promise B :=
  fun w =>
    match m w with
    | (Resolved a, w') => k a w'
    | (Rejected e, w') => (Rejected e, w')
    end.
Definition gets {A} (f : World -> A) : Promise A := fun w => (Resolved (f w), w).
Definition modify (f : World -> World) : Promise unit := fun w => (Resolved tt, f w).

Notation "'let*' x := m 'in' k" := (bind m (fun x => k))
  (at level 10, x name, m at level 100, k at level 200).
Notation "'do' m 'in' k" := (bind m (fun _ => k))
  (at level 10, m at level 100, k at level 200).

(** [new BlockClass.Block({ data })]: a new object in the store. *)
Definition new_Block (data : JSON) : Promise loc :=
  fun w => (Resolved (length (heap w)), set_heap (heap w ++ [Block.new data]) w).

(** [array.filter((item, index) => ...)] *)
Fixpoint filter_from {A} (keep : A -> nat -> bool) (index : nat) (l : list A) : list A :=
  match l with
  | [] => []
  | x :: l' =>
      if keep x index then x :: filter_from keep (S index) l'
      else filter_from keep (S index) l'
  end.
Definition Array_filter {A} (keep : A -> nat -> bool) (l : list A) : list A :=
  filter_from keep 0 l.

(** [array[k]] for a number [k]: [undefined] outside the array. *)
Definition Array_at {A} (l : list A) (k : Z) : option A :=
  if k <? 0 then None else l !! Z.to_nat k.

Definition VALIDATION_TIMEOUT_SECONDS : Z := 5 * 60.

Definition expired_message : string := "Star should be submitted within 5 minutes.".
Definition invalid_signature_message : string := "Invalid signature.".

Section Blockchain.

(** [SHA256(text).toString()] of crypto-js. *)
Variable SHA256 : string -> string.
(** [bitcoinMessage.verify(message, address, signature)]. *)
Variable verify : string -> string -> string -> bool.
(** [new Date().getTime()], by the number of earlier readings. *)
Variable Date_getTime : nat -> Z.

Definition timestamp : Promise string :=
  let* n := gets clock in
  do modify (set_clock (S n)) in
  resolve (Str.slice_0_minus3 (Str.of_Z (Date_getTime n))).

Definition _addBlock (block : loc) : Promise loc :=
  let* h := gets height in
  do modify (mutate block (Block.set_height (h + 1))) in
  let* t := timestamp in
  do modify (mutate block (Block.set_time t)) in
  let* c := gets chain in
  do (if (0 <? length c)%nat
      then match c !! (length c - 1)%nat with
           | Some previousBlock =>
               let* p := gets (fun w => Block.hash (deref w previousBlock)) in
               modify (mutate block (Block.set_previousBlockHash p))
           | None => resolve tt
           end
      else resolve tt) in
  let* text := gets (fun w => Json.stringify (Block.toJSON (deref w block))) in
  do modify (mutate block (Block.set_hash (Some (SHA256 text)))) in
  do modify (fun w => set_chain (chain w ++ [block]) w) in
  do modify (fun w => set_height (height w + 1) w) in
  resolve block.

Definition initializeChain : Promise unit :=
  let* h := gets height in
  if h =? -1
  then let* block := new_Block (JStr "Genesis Block") in
       do _addBlock block in
       resolve tt
  else resolve tt.

(** [new Blockchain()] *)
Definition constructor : Promise unit :=
  do modify (set_chain []) in
  do modify (set_height (-1)) in
  initializeChain.

Definition getChainHeight : Promise Z := gets height.

Definition requestMessageOwnershipVerification (address : string) : Promise string :=
  let* t := timestamp in
  resolve (Str.join ":" [address; t; "starRegistry"%string]).

Definition bitcoinMessage_verify (message address signature : string) : Promise bool :=
  do modify (fun w => set_verified (verified w ++ [(message, address, signature)]) w) in
  resolve (verify message address signature).

Definition submitStar (address message signature : string) (star : JSON) : Promise loc :=
  let messageTime := parseInt (Str.split ":" message !! 1%nat) in
  let* currentTime := timestamp in
  if js_gt (js_sub (ToNumber currentTime) messageTime) VALIDATION_TIMEOUT_SECONDS
  then reject expired_message
  else
    let* ok := bitcoinMessage_verify message address signature in
    if negb ok
    then reject invalid_signature_message
    else
      let* block := new_Block (JObj [("owner"%string, JStr address); ("star"%string, star)]) in
      _addBlock block.

Definition getBlockByHash (hash : string) : Promise (option loc) :=
  gets (fun w =>
    List.find (fun block => bool_decide (Block.hash (deref w block) = Some hash)) (chain w)).

Definition getBlockByHeight (height : Z) : Promise (option loc) :=
  gets (fun w =>
    List.find (fun block => Block.height (deref w block) =? height) (chain w)).

Definition getStarsByWalletAddress (address : string) : Promise (list JSON) :=
  let* blocksData :=
    gets (fun w => map (fun block => Block.getBData (deref w block)) (tail (chain w))) in
  resolve (List.filter (fun blockData => Json.is_string (Json.get "owner" blockData) address)
             blocksData).

(** The callback [validateChain] filters the chain with: whether a block
    is kept in the error log. *)
Definition in_error_log (validityByIndex : list bool) (w : World)
    (block : loc) (index : nat) : bool :=
  (* valid block are filtered out from error log *)
  if default false (validityByIndex !! index)
  then false
  else
    (* compare blocks hash link *)
    match Array_at (chain w) (Block.height (deref w block) + 1) with
    | Some nextBlock =>
        (* keep in error log when hashes differ *)
        negb (bool_decide (Block.previousBlockHash (deref w nextBlock)
                           = Block.hash (deref w block)))
    | None => false
    end.

(** [block.validate()] of every block of the chain. *)
Definition validity (w : World) : list bool :=
  map (fun block => Block.validate SHA256 (deref w block)) (chain w).

Definition validateChain : Promise (list loc) :=
  let* validityByIndex := gets validity in
  gets (fun w => Array_filter (in_error_log validityByIndex w) (chain w)).

End Blockchain.

(** What the callers of [_addBlock] do (the genesis block, a submitted star,
    the unit test): make a block for the payload and hand it over. *)
Definition addNewBlock (SHA256 : string -> string) (Date_getTime : nat -> Z)
    (data : JSON) : Promise loc :=
  let* block := new_Block data in
  _addBlock SHA256 Date_getTime block.

(** ** Calls and histories *)

(** A call on the ledger, or the making of a block by its caller. *)
Inductive Call : Type :=
| New (data : JSON)
| AddBlock (block : loc)
| InitializeChain
| GetChainHeight
| RequestMessageOwnershipVerification (address : string)
| SubmitStar (address message signature : string) (star : JSON)
| GetBlockByHash (hash : string)
| GetBlockByHeight (height : Z)
| GetStarsByWalletAddress (address : string)
| ValidateChain.

Section Histories.

Variable SHA256 : string -> string.
Variable verify : string -> string -> string -> bool.
Variable Date_getTime : nat -> Z.

(** The world a call leaves behind. *)
Definition exec (c : Call) (w : World) : World :=
  match c with
  | New data => snd (new_Block data w)
  | AddBlock block => snd (_addBlock SHA256 Date_getTime block w)
  | InitializeChain => snd (initializeChain SHA256 Date_getTime w)
  | GetChainHeight => snd (getChainHeight w)
  | RequestMessageOwnershipVerification address =>
      snd (requestMessageOwnershipVerification Date_getTime address w)
  | SubmitStar address message signature star =>
      snd (submitStar SHA256 verify Date_getTime address message signature star w)
  | GetBlockByHash hash => snd (getBlockByHash hash w)
  | GetBlockByHeight height => snd (getBlockByHeight height w)
  | GetStarsByWalletAddress address => snd (getStarsByWalletAddress address w)
  | ValidateChain => snd (validateChain SHA256 w)
  end.

Definition run (calls : list Call) (w : World) : World :=
  fold_left (fun w c => exec c w) calls w.

(** A call hands [_addBlock] a block the ledger does not hold yet. *)
Definition admissible (w : World) (c : Call) : bool :=
  match c with
  | AddBlock block =>
      bool_decide (block ∉ chain w) && bool_decide (block < length (heap w))%nat
  | _ => true
  end.

Fixpoint all_admissible (w : World) (calls : list Call) : bool :=
  match calls with
  | [] => true
  | c :: calls' => admissible w c && all_admissible (exec c w) calls'
  end.

(** A submission: wallet address, challenge, signature, star. *)
Definition submit_call (sub : string * string * string * JSON) : Call :=
  let '(address, message, signature, star) := sub in
  SubmitStar address message signature star.

(** The claims of the submissions that [submitStar] resolves, in order. *)
Fixpoint accepted (w : World) (subs : list (string * string * string * JSON))
  : list (string * JSON) :=
  match subs with
  | [] => []
  | (address, message, signature, star) :: subs' =>
      let r := submitStar SHA256 verify Date_getTime address message signature star w in
      match fst r with
      | Resolved _ => (address, star) :: accepted (snd r) subs'
      | Rejected _ => accepted (snd r) subs'
      end
  end.

(** A ledger as [new Blockchain()] leaves it. *)
Definition fresh_ledger (w0 : World) : World :=
  snd (constructor SHA256 Date_getTime w0).

End Histories.

(** ** Properties of the chain *)

(** Every reference of the chain points into the store. *)
Definition allocated (w : World) : Prop :=
  ∀ l, l ∈ chain w → (l < length (heap w))%nat.

(** The record at position [i] has height [i], and the cached height is the
    length of the chain minus one. *)
Definition heights_ok (w : World) : Prop :=
  (∀ i l, chain w !! i = Some l → Block.height (deref w l) = Z.of_nat i)
  ∧ height w = Z.of_nat (length (chain w)) - 1.

(** Every record but the first carries the hash of its predecessor. *)
Definition linked (w : World) : Prop :=
  ∀ i l l', chain w !! i = Some l → chain w !! S i = Some l' →
    Block.previousBlockHash (deref w l') = Block.hash (deref w l).

Record chain_ok (w : World) : Prop := {
  ok_allocated : allocated w;
  ok_nodup : NoDup (chain w);
  ok_heights : heights_ok w;
  ok_linked : linked w;
}.

(** ** Steps of the ledger *)

(** Two worlds with the same store, chain and cached height. *)
Definition same_ledger (w w' : World) : Prop :=
  heap w' = heap w ∧ chain w' = chain w ∧ height w' = height w.

(** What a call can do to the ledger: nothing, make a block, or append a
    block that the chain does not hold yet. *)
Inductive step (SHA256 : string -> string) (Date_getTime : nat -> Z) (w : World)
  : World -> Prop :=
| step_same w' :
    same_ledger w w' → step SHA256 Date_getTime w w'
| step_New data :
    step SHA256 Date_getTime w (snd (new_Block data w))
| step_AddBlock block :
    block ∉ chain w → (block < length (heap w))%nat →
    step SHA256 Date_getTime w (snd (_addBlock SHA256 Date_getTime block w)).

(** What the caller of [validateChain] is told, set against the two checks
    of the documentation: a record fails when its own hash does not match
    ([validate()] is false), or when its successor does not point back at
    it. *)
Definition self_invalid (SHA256 : string -> string) (w : World) (l : loc) : Prop :=
  Block.validate SHA256 (deref w l) = false.

Definition link_broken (w : World) (i : nat) (l : loc) : Prop :=
  ∃ l', chain w !! S i = Some l'
        ∧ Block.previousBlockHash (deref w l') ≠ Block.hash (deref w l).

(** The text [timestamp()] answers in a world: the clock reading cut to
    seconds. *)
Definition stamp (Date_getTime : nat -> Z) (w : World) : string :=
  Str.slice_0_minus3 (Str.of_Z (Date_getTime (clock w))).

(** The block [_addBlock] leaves behind the reference it was given. *)
Definition appended (SHA256 : string -> string) (Date_getTime : nat -> Z)
    (w : World) (block : loc) : Block.t :=
  let b1 :=
    Block.set_time (stamp Date_getTime w)
      (Block.set_height (height w + 1) (deref w block)) in
  let b2 :=
    match last (chain w) with
    | Some previousBlock =>
        Block.set_previousBlockHash
          (Block.hash (if decide (previousBlock = block) then b1 else deref w previousBlock))
          b1
    | None => b1
    end in
  Block.set_hash (Some (SHA256 (Json.stringify (Block.toJSON b2)))) b2.

(** The elapsed time [submitStar] compares with the timeout. *)
Definition elapsed (Date_getTime : nat -> Z) (w : World) (message : string) : JSNum :=
  js_sub (ToNumber (stamp Date_getTime w)) (parseInt (Str.split ":" message !! 1%nat)).

(** The payload [submitStar] stores for a claim. *)
Definition claim (owner : string) (star : JSON) : JSON :=
  JObj [("owner"%string, JStr owner); ("star"%string, star)].

(** ** A small ledger to run the operations on *)

Module Fixture.

(** A stand-in for the digest: the text itself, so that a stored hash
    shows what was hashed and two hashes differ exactly when the hashed
    texts do. *)
Definition digest (text : string) : string := text.

(** A stand-in for the wallet check: the one valid signature of a message
    is the message behind the address. *)
Definition signed (message address signature : string) : bool :=
  String.eqb signature (address +:+ "/" +:+ message).

(** A clock that advances by one second at every reading. *)
Definition clock_ms (n : nat) : Z := 1600000000000 + 1000 * Z.of_nat n.

Definition empty : World := mkWorld [] [] (-1) 0 [].

(** [new Blockchain()] *)
Definition ledger : World := fresh_ledger digest clock_ms empty.

(** The unit test's chain: blocks "foo", "bar" and "qux" appended to a
    new ledger.  The genesis block is object 0, the others 1, 2 and 3. *)
Definition foo_bar_qux : list Call :=
  [ New (JStr "foo"); AddBlock 1; New (JStr "bar"); AddBlock 2;
    New (JStr "qux"); AddBlock 3 ].

Definition tested : World := run digest signed clock_ms foo_bar_qux ledger.

(** The challenge a wallet is given, and its one valid signature. *)
Definition challenge (address seconds : string) : string :=
  Str.join ":" [address; seconds; "starRegistry"%string].
Definition signature (address message : string) : string :=
  address +:+ "/" +:+ message.

(** A star submitted with a valid signature on a challenge. *)
Definition submission (address seconds : string) (star : JSON) : Call :=
  SubmitStar address (challenge address seconds)
    (signature address (challenge address seconds)) star.

(** A registry: two stars of one wallet and, between them, one of another. *)
Definition registry : World :=
  run digest signed clock_ms
    [ submission "alice" "1600000001" (JStr "Vega");
      submission "bob" "1600000002" (JStr "Deneb");
      submission "alice" "1600000003" (JStr "Altair") ] ledger.

End Fixture.

Arguments mutate : simpl never.
Arguments deref : simpl never.
Arguments Json.stringify : simpl never.
Arguments Block.toJSON : simpl never.

(** The payloads after the first record are the given claims. *)
Definition holds_claims (w : World) (claims : list (string * JSON)) : Prop :=
  allocated w
  ∧ chain w ≠ []
  ∧ map (fun block => Block.getBData (deref w block)) (tail (chain w))
    = map (fun c => claim c.1 c.2) claims.

(** A call hands [_addBlock] a block whose hash is still empty, as
    [new Block] leaves it. *)
Definition hash_empty (w : World) (c : Call) : bool :=
  match c with
  | AddBlock block => bool_decide (Block.hash (deref w block) = None)
  | _ => true
  end.

Fixpoint all_hash_empty (SHA256 : string -> string)
    (verify : string -> string -> string -> bool) (Date_getTime : nat -> Z)
    (w : World) (calls : list Call) : bool :=
  match calls with
  | [] => true
  | c :: calls' =>
      hash_empty w c
      && all_hash_empty SHA256 verify Date_getTime
           (exec SHA256 verify Date_getTime c w) calls'
  end.

(** Every record of the chain passes its own check. *)
Definition all_records_valid (SHA256 : string -> string) (w : World) : Prop :=
  ∀ l, l ∈ chain w → Block.validate SHA256 (deref w l) = true.

(** ** How the operations act on the world *)

Lemma deref_mutate_eq w l f :
  (l < length (heap w))%nat → deref (mutate l f w) l = f (deref w l).
Proof.
  intros Hl. unfold deref, mutate; simpl.
  rewrite list_lookup_alter_eq.
  apply lookup_lt_is_Some_2 in Hl as [b Hb]. by rewrite Hb.
Qed.

Lemma deref_mutate_ne w l l' f :
  l ≠ l' → deref (mutate l f w) l' = deref w l'.
Proof.
  intros Hne. unfold deref, mutate; simpl.
  by rewrite list_lookup_alter_ne.
Qed.

Lemma deref_mutate w l l' f :
  (l < length (heap w))%nat →
  deref (mutate l f w) l' = if decide (l = l') then f (deref w l) else deref w l'.
Proof.
  intros Hl. case_decide as E.
  - subst. by apply deref_mutate_eq.
  - by apply deref_mutate_ne.
Qed.

Lemma length_heap_mutate w l f : length (heap (mutate l f w)) = length (heap w).
Proof. unfold mutate; simpl. apply length_alter. Qed.

Lemma deref_set_chain c w l : deref (set_chain c w) l = deref w l.
Proof. reflexivity. Qed.
Lemma deref_set_height h w l : deref (set_height h w) l = deref w l.
Proof. reflexivity. Qed.
Lemma deref_set_clock n w l : deref (set_clock n w) l = deref w l.
Proof. reflexivity. Qed.
Lemma deref_set_verified v w l : deref (set_verified v w) l = deref w l.
Proof. reflexivity. Qed.
Lemma chain_mutate l f w : chain (mutate l f w) = chain w.
Proof. reflexivity. Qed.
Lemma height_mutate l f w : height (mutate l f w) = height w.
Proof. reflexivity. Qed.
Lemma clock_mutate l f w : clock (mutate l f w) = clock w.
Proof. reflexivity. Qed.
Lemma verified_mutate l f w : verified (mutate l f w) = verified w.
Proof. reflexivity. Qed.

Create Rewrite HintDb world.
#[global] Hint Rewrite deref_set_chain deref_set_height deref_set_clock deref_set_verified
  length_heap_mutate chain_mutate height_mutate clock_mutate verified_mutate : world.

(** Projections of a world built by the setters. *)
Ltac world_simpl :=
  repeat first [ progress cbn -[Z.add Z.sub Z.of_nat]
               | progress autorewrite with world ].

(** Reads through a stack of assignments. *)
Ltac store_simpl :=
  repeat first [ progress world_simpl
               | rewrite deref_mutate_ne by done
               | rewrite deref_mutate_eq by (world_simpl; done)
               | rewrite deref_mutate by (world_simpl; done) ].

(** A new object leaves the objects made before it as they are. *)
Lemma deref_new_Block_old data w l :
  (l < length (heap w))%nat → deref (snd (new_Block data w)) l = deref w l.
Proof.
  intros Hl. unfold deref, new_Block; simpl. by rewrite lookup_app_l.
Qed.

Lemma deref_new_Block_new data w :
  deref (snd (new_Block data w)) (length (heap w)) = Block.new data.
Proof.
  unfold deref, new_Block; simpl. by rewrite list_lookup_middle.
Qed.

Section Effects.

Variable SHA256 : string -> string.
Variable verify : string -> string -> string -> bool.
Variable Date_getTime : nat -> Z.

Lemma _addBlock_effect w block :
  (block < length (heap w))%nat →
  ∃ w', _addBlock SHA256 Date_getTime block w = (Resolved block, w')
    ∧ chain w' = chain w ++ [block]
    ∧ height w' = height w + 1
    ∧ clock w' = S (clock w)
    ∧ verified w' = verified w
    ∧ length (heap w') = length (heap w)
    ∧ deref w' block = appended SHA256 Date_getTime w block
    ∧ ∀ l, l ≠ block → deref w' l = deref w l.
Proof.
  intros Hb. unfold appended, stamp. rewrite last_lookup, <- Nat.sub_1_r.
  unfold _addBlock, timestamp, bind, gets, modify, resolve. world_simpl.
  destruct (chain w !! (length (chain w) - 1)%nat) as [p|] eqn:Ep.
  - apply lookup_lt_Some in Ep as Hlt.
    destruct (length (chain w)) as [|n] eqn:En; [lia|].
    eexists; split; [reflexivity|]. world_simpl.
    repeat split.
    + store_simpl. repeat (case_decide; subst); done.
    + intros l Hl. by store_simpl.
  - apply lookup_ge_None in Ep.
    destruct (length (chain w)) as [|n] eqn:En; [|lia].
    eexists; split; [reflexivity|]. world_simpl.
    repeat split.
    + by store_simpl.
    + intros l Hl. by store_simpl.
Qed.

(** [_addBlock] leaves the chain, the height and the verification log
    as computed even on a dangling reference; only the store cases above
    need the reference to be allocated. *)
Lemma _addBlock_frame w block :
  ∃ w', _addBlock SHA256 Date_getTime block w = (Resolved block, w')
    ∧ chain w' = chain w ++ [block]
    ∧ height w' = height w + 1
    ∧ clock w' = S (clock w)
    ∧ verified w' = verified w
    ∧ length (heap w') = length (heap w)
    ∧ ∀ l, l ≠ block → deref w' l = deref w l.
Proof.
  unfold _addBlock, timestamp, bind, gets, modify, resolve. world_simpl.
  destruct (chain w !! (length (chain w) - 1)%nat);
    destruct (length (chain w));
    (eexists; split; [reflexivity|]; world_simpl; repeat split;
     intros l Hl; by store_simpl).
Qed.

End Effects.

Lemma same_ledger_refl w : same_ledger w w.
Proof. by repeat split. Qed.

Lemma same_ledger_deref w w' l : same_ledger w w' → deref w' l = deref w l.
Proof. intros (Hh & _ & _). unfold deref. by rewrite Hh. Qed.

Section Steps.

Variable SHA256 : string -> string.
Variable verify : string -> string -> string -> bool.
Variable Date_getTime : nat -> Z.

Local Abbreviation step := (step SHA256 Date_getTime).
Local Abbreviation exec := (exec SHA256 verify Date_getTime).
Local Abbreviation run := (run SHA256 verify Date_getTime).

(** Making a block and appending it are two steps. *)
Lemma addNewBlock_steps data w :
  allocated w →
  rtc step w (snd (addNewBlock SHA256 Date_getTime data w)).
Proof.
  intros Hal. unfold addNewBlock, bind. 
  destruct (new_Block data w) as [r w1] eqn:E.
  assert (r = Resolved (length (heap w)) ∧ w1 = snd (new_Block data w)) as [-> ->].
  { rewrite E. unfold new_Block in E. by inversion E. }
  eapply rtc_l; [apply step_New|]. apply rtc_once, step_AddBlock.
  - intros Hin. apply Hal in Hin. simpl in Hin. lia.
  - simpl. rewrite length_app. simpl. lia.
Qed.

Lemma exec_steps c w :
  allocated w → admissible w c = true → rtc step w (exec c w).
Proof.
  intros Hal Hadm. destruct c; simpl.
  - apply rtc_once, step_New.
  - simpl in Hadm. apply andb_prop in Hadm as [H1 H2].
    apply bool_decide_eq_true in H1, H2. by apply rtc_once, step_AddBlock.
  - unfold initializeChain, bind, gets.
    destruct (height w =? -1).
    + pose proof (addNewBlock_steps (JStr "Genesis Block") w Hal) as Hs.
      unfold addNewBlock, bind in Hs.
      destruct (new_Block (JStr "Genesis Block") w) as [[b|e] w1]; [|done].
      destruct (_addBlock SHA256 Date_getTime b w1) as [[b'|e] w2]; done.
    + apply rtc_refl.
  - apply rtc_refl.
  - apply rtc_once, step_same. by repeat split.
  - unfold submitStar, bind. unfold timestamp at 1.
    unfold bind, gets, modify, resolve. 
    destruct (js_gt _ _); [apply rtc_once, step_same; by repeat split|].
    unfold bitcoinMessage_verify, bind, modify, resolve.
    destruct (verify _ _ _); simpl; [|apply rtc_once, step_same; by repeat split].
    set (w1 := set_verified (verified w ++ [(message, address, signature)])
                 (set_clock (S (clock w)) w)).
    apply (rtc_l _ _ w1); [apply step_same; by repeat split|].
    pose proof (addNewBlock_steps (claim address star) w1) as Hs.
    unfold addNewBlock, bind, claim in Hs. apply Hs. exact Hal.
  - apply rtc_refl.
  - apply rtc_refl.
  - apply rtc_refl.
  - apply rtc_refl.
Qed.

End Steps.

Section Invariants.

Variable SHA256 : string -> string.
Variable verify : string -> string -> string -> bool.
Variable Date_getTime : nat -> Z.

Local Abbreviation step := (step SHA256 Date_getTime).
Local Abbreviation exec := (exec SHA256 verify Date_getTime).
Local Abbreviation run := (run SHA256 verify Date_getTime).

Lemma allocated_step w w' : allocated w → step w w' → allocated w'.
Proof.
  intros Hal [? (Hh & Hc & _)|data|block Hnin Hb]; intros l Hl.
  - rewrite Hh. apply Hal. by rewrite <- Hc.
  - simpl in *. rewrite length_app. apply Hal in Hl. lia.
  - destruct (_addBlock_effect SHA256 Date_getTime w block Hb)
      as (w2 & Heq & Hc & _ & _ & _ & Hlen & _).
    rewrite Heq in *. simpl in *. rewrite Hlen. rewrite Hc in Hl.
    apply elem_of_app in Hl as [Hl|Hl%list_elem_of_singleton]; [by apply Hal|by subst].
Qed.

Lemma nodup_step w w' : NoDup (chain w) → step w w' → NoDup (chain w').
Proof.
  intros Hnd [? (_ & Hc & _)|data|block Hnin Hb].
  - by rewrite Hc.
  - done.
  - destruct (_addBlock_effect SHA256 Date_getTime w block Hb)
      as (w2 & Heq & Hc & _).
    rewrite Heq. simpl. rewrite Hc. apply NoDup_app. repeat split; [done| |apply NoDup_singleton].
    intros x Hx ->%list_elem_of_singleton. done.
Qed.

Lemma heights_step w w' : allocated w → heights_ok w → step w w' → heights_ok w'.
Proof.
  intros Hal [Hhs Hh] [? Hsame|data|block Hnin Hb].
  - pose proof Hsame as (Hheap & Hc & Hht). split.
    + intros i l Hl. rewrite (same_ledger_deref w) by done.
      apply Hhs. by rewrite <- Hc.
    + by rewrite Hht, Hc.
  - split; [|done]. intros i l Hl. simpl in Hl.
    rewrite deref_new_Block_old; [by apply Hhs|].
    apply Hal. by eapply list_elem_of_lookup_2.
  - destruct (_addBlock_effect SHA256 Date_getTime w block Hb)
      as (w2 & Heq & Hc & Hht & _ & _ & _ & Hnew & Hold).
    rewrite Heq. simpl. split.
    + intros i l Hl. rewrite Hc in Hl.
      apply lookup_snoc_Some in Hl as [[Hi Hl]|[-> <-]].
      * rewrite Hold; [by apply Hhs|].
        intros ->. apply Hnin. by eapply list_elem_of_lookup_2.
      * rewrite Hnew. unfold appended.
        destruct (last (chain w)); simpl; lia.
    + rewrite Hht, Hc, length_app. simpl. lia.
Qed.

Lemma linked_step w w' : allocated w → linked w → step w w' → linked w'.
Proof.
  intros Hal Hlk [? Hsame|data|block Hnin Hb].
  - pose proof Hsame as (Hheap & Hc & Hht).
    intros i l l' Hl Hl'. rewrite (same_ledger_deref w _ l), (same_ledger_deref w _ l') by done.
    rewrite Hc in Hl, Hl'. by eapply Hlk.
  - intros i l l' Hl Hl'. simpl in Hl, Hl'.
    rewrite !deref_new_Block_old; [by eapply Hlk| |];
      apply Hal; by eapply list_elem_of_lookup_2.
  - destruct (_addBlock_effect SHA256 Date_getTime w block Hb)
      as (w2 & Heq & Hc & Hht & _ & _ & _ & Hnew & Hold).
    rewrite Heq. simpl. intros i l l' Hl Hl'. rewrite Hc in Hl, Hl'.
    apply lookup_snoc_Some in Hl as [[Hi Hl]|[-> <-]];
      [|apply lookup_lt_Some in Hl'; rewrite length_app in Hl'; simpl in Hl'; lia].
    assert (l ≠ block) as Hne
      by (intros ->; apply Hnin; by eapply list_elem_of_lookup_2).
    rewrite (Hold l Hne).
    apply lookup_snoc_Some in Hl' as [[Hi' Hl']|[Hi' <-]].
    + rewrite Hold; [by eapply Hlk|].
      intros ->. apply Hnin. by eapply list_elem_of_lookup_2.
    + rewrite Hnew. unfold appended.
      assert (last (chain w) = Some l) as ->.
      { rewrite last_lookup, <- Hi'. exact Hl. }
      simpl. by rewrite decide_False.
Qed.

Lemma chain_ok_step w w' : chain_ok w → step w w' → chain_ok w'.
Proof.
  intros [Hal Hnd Hh Hlk] Hs. split;
    eauto using allocated_step, nodup_step, heights_step, linked_step.
Qed.

Lemma chain_ok_steps w w' : chain_ok w → rtc step w w' → chain_ok w'.
Proof. intros Hok Hs. induction Hs; eauto using chain_ok_step. Qed.

Lemma chain_ok_exec c w :
  chain_ok w → admissible w c = true → chain_ok (exec c w).
Proof.
  intros Hok Hadm. eapply chain_ok_steps; [done|].
  apply (exec_steps SHA256 verify Date_getTime); [apply Hok|done].
Qed.

Lemma chain_ok_run calls w :
  chain_ok w → all_admissible SHA256 verify Date_getTime w calls = true →
  chain_ok (run calls w).
Proof.
  revert w. induction calls as [|c calls IH]; intros w Hok Hadm; [done|].
  simpl in Hadm. apply andb_prop in Hadm as [H1 H2].
  simpl. apply IH; [by apply chain_ok_exec|done].
Qed.

(** [new Blockchain()] starts from an empty chain, whatever the store
    holds. *)
Lemma chain_ok_reset w0 : chain_ok (set_height (-1) (set_chain [] w0)).
Proof.
  split.
  - intros l Hl. simpl in Hl. by apply elem_of_nil in Hl.
  - simpl. apply NoDup_nil_2.
  - split; [|done]. intros i l Hl. simpl in Hl. by rewrite lookup_nil in Hl.
  - intros i l l' Hl. simpl in Hl. by rewrite lookup_nil in Hl.
Qed.

Lemma chain_ok_fresh_ledger w0 : chain_ok (fresh_ledger SHA256 Date_getTime w0).
Proof.
  change (chain_ok (exec InitializeChain (set_height (-1) (set_chain [] w0)))).
  apply chain_ok_exec; [apply chain_ok_reset|done].
Qed.

End Invariants.

(** ** Filtering with the index *)

Lemma elem_of_filter_from {A} (keep : A → nat → bool) s l x :
  x ∈ filter_from keep s l ↔ ∃ i, l !! i = Some x ∧ keep x (s + i)%nat = true.
Proof.
  revert s. induction l as [|y l IH]; intros s; simpl.
  - split; [intros H%elem_of_nil; done|intros (i & H & _); by rewrite lookup_nil in H].
  - split.
    + destruct (keep y s) eqn:Ek.
      * intros [->|Hx]%elem_of_cons.
        -- exists 0%nat. by rewrite Nat.add_0_r.
        -- apply IH in Hx as (i & Hi & Hk). exists (S i).
           by rewrite Nat.add_succ_r.
      * intros Hx. apply IH in Hx as (i & Hi & Hk). exists (S i).
        by rewrite Nat.add_succ_r.
    + intros ([|i] & Hi & Hk); simpl in Hi.
      * inversion Hi; subst. rewrite Nat.add_0_r in Hk. rewrite Hk. apply elem_of_cons; by left.
      * rewrite Nat.add_succ_r in Hk.
        assert (x ∈ filter_from keep (S s) l) by (apply IH; eauto).
        destruct (keep y s); [apply elem_of_cons; by right|done].
Qed.

Lemma filter_from_nil {A} (keep : A → nat → bool) s l :
  (∀ i x, l !! i = Some x → keep x (s + i)%nat = false) → filter_from keep s l = [].
Proof.
  intros Hk. destruct (filter_from keep s l) as [|x r] eqn:E; [done|].
  assert (x ∈ filter_from keep s l) as Hx by (rewrite E; apply elem_of_cons; by left).
  apply elem_of_filter_from in Hx as (i & Hi & Hkeep).
  by rewrite (Hk i x Hi) in Hkeep.
Qed.

Lemma filter_from_sublist {A} (keep : A → nat → bool) s l :
  sublist (filter_from keep s l) l.
Proof.
  revert s. induction l as [|y l IH]; intros s; simpl; [constructor|].
  destruct (keep y s); [by apply sublist_skip|by apply sublist_cons].
Qed.

Lemma Array_at_succ {A} (l : list A) (i : nat) :
  Array_at l (Z.of_nat i + 1) = l !! S i.
Proof.
  unfold Array_at. destruct (Z.ltb_spec (Z.of_nat i + 1) 0); [lia|].
  f_equal. lia.
Qed.

Section Validation.

Variable SHA256 : string -> string.

(** The answer of the callback [validateChain] filters the chain with. *)
Lemma validateChain_eq w :
  validateChain SHA256 w
  = (Resolved (Array_filter (in_error_log (validity SHA256 w) w) (chain w)), w).
Proof. reflexivity. Qed.

Lemma in_error_log_at w i l :
  heights_ok w → chain w !! i = Some l →
  in_error_log (validity SHA256 w) w l i =
    negb (Block.validate SHA256 (deref w l))
    && match chain w !! S i with
       | Some l' =>
           negb (bool_decide (Block.previousBlockHash (deref w l')
                              = Block.hash (deref w l)))
       | None => false
       end.
Proof.
  intros [Hh _] Hl. unfold in_error_log, validity.
  rewrite list_lookup_fmap, Hl. simpl.
  rewrite (Hh _ _ Hl), Array_at_succ.
  by destruct (Block.validate SHA256 (deref w l)).
Qed.

(** What the error log holds when heights agree with positions: the
    records that fail their own check and, on top of that, are not pointed
    back at by their successor. *)
Lemma validateChain_reports w l :
  heights_ok w →
  l ∈ Array_filter (in_error_log (validity SHA256 w) w) (chain w) ↔
  ∃ i, chain w !! i = Some l ∧ self_invalid SHA256 w l ∧ link_broken w i l.
Proof.
  intros Hok. unfold Array_filter. rewrite elem_of_filter_from. simpl.
  split; intros (i & Hl & H); exists i; (split; [done|]).
  - rewrite in_error_log_at in H by done.
    apply andb_prop in H as [Hv Hn]. apply negb_true_iff in Hv.
    split; [done|]. unfold link_broken.
    destruct (chain w !! S i) as [l'|]; [|done].
    exists l'. split; [done|].
    apply negb_true_iff, bool_decide_eq_false in Hn. done.
  - destruct H as (Hv & l' & Hl' & Hne). rewrite in_error_log_at by done.
    unfold self_invalid in Hv. rewrite Hv, Hl'. simpl.
    apply negb_true_iff, bool_decide_eq_false. done.
Qed.

(** A chain whose links are intact has an empty error log, whatever the
    records answer to [validate()]. *)
Lemma validateChain_linked w :
  heights_ok w → linked w → fst (validateChain SHA256 w) = Resolved [].
Proof.
  intros Hok Hlk. rewrite validateChain_eq. simpl. f_equal.
  apply filter_from_nil. intros i l Hl. simpl.
  rewrite in_error_log_at by done.
  destruct (chain w !! S i) as [l'|] eqn:El'.
  - rewrite (Hlk i l l' Hl El'), bool_decide_eq_true_2 by done.
    simpl. apply andb_false_r.
  - apply andb_false_r.
Qed.

End Validation.

(** ** Submitting a star *)

Section Submission.

Variable SHA256 : string -> string.
Variable verify : string -> string -> string -> bool.
Variable Date_getTime : nat -> Z.

Local Abbreviation submit := (submitStar SHA256 verify Date_getTime).

Lemma addNewBlock_effect data w :
  ∃ w', addNewBlock SHA256 Date_getTime data w = (Resolved (length (heap w)), w')
    ∧ chain w' = chain w ++ [length (heap w)]
    ∧ height w' = height w + 1
    ∧ clock w' = S (clock w)
    ∧ verified w' = verified w.
Proof.
  unfold addNewBlock, bind. 
  destruct (new_Block data w) as [r w1] eqn:E.
  unfold new_Block in E. inversion E; subst; clear E.
  destruct (_addBlock_frame SHA256 Date_getTime
              (set_heap (heap w ++ [Block.new data]) w) (length (heap w)))
    as (w' & -> & Hc & Hh & Hk & Hv & _).
  exists w'. by repeat split.
Qed.

(** The three ways [submitStar] can go, in the order the code tries them. *)
Lemma submitStar_cases address message signature star w :
  let ticked := set_clock (S (clock w)) w in
  let checked := set_verified (verified w ++ [(message, address, signature)]) ticked in
  submit address message signature star w =
    if js_gt (elapsed Date_getTime w message) VALIDATION_TIMEOUT_SECONDS
    then (Rejected expired_message, ticked)
    else if verify message address signature
         then addNewBlock SHA256 Date_getTime (claim address star) checked
         else (Rejected invalid_signature_message, checked).
Proof.
  unfold submitStar, elapsed, stamp, timestamp, bitcoinMessage_verify,
    bind, gets, modify, resolve, reject. simpl.
  destruct (js_gt _ _); [done|].
  by destruct (verify message address signature).
Qed.

(** C3. A challenge whose embedded time is more than 300 seconds behind the
    current time is refused with the message for a late submission, whatever
    the signature check would answer: the check is not called (the log of
    verifications is unchanged), and nothing but the clock reading has
    happened to the world. *)
Theorem submitStar_expired address message signature star w current sent :
  ToNumber (stamp Date_getTime w) = Num current →
  parseInt (Str.split ":" message !! 1%nat) = Num sent →
  current - sent > VALIDATION_TIMEOUT_SECONDS →
  submit address message signature star w
  = (Rejected expired_message, set_clock (S (clock w)) w)
  ∧ verified (snd (submit address message signature star w)) = verified w.
Proof.
  intros Hnow Hsent Hlate. rewrite submitStar_cases.
  unfold elapsed. rewrite Hnow, Hsent. simpl.
  destruct (Z.ltb_spec VALIDATION_TIMEOUT_SECONDS (current - sent)) as [_|Hle]; [done|lia].
Qed.

(** C4. A challenge inside the 300-second window with a signature that does
    not verify is refused with the message for an invalid signature, and the
    ledger is as before: same store (every record unchanged), same chain,
    same height. *)
Theorem submitStar_invalid_signature address message signature star w current sent :
  ToNumber (stamp Date_getTime w) = Num current →
  parseInt (Str.split ":" message !! 1%nat) = Num sent →
  current - sent <= VALIDATION_TIMEOUT_SECONDS →
  verify message address signature = false →
  fst (submit address message signature star w) = Rejected invalid_signature_message
  ∧ same_ledger w (snd (submit address message signature star w))
  ∧ length (chain (snd (submit address message signature star w))) = length (chain w).
Proof.
  intros Hnow Hsent Hin Hbad. rewrite submitStar_cases.
  unfold elapsed. rewrite Hnow, Hsent, Hbad. simpl.
  destruct (Z.ltb_spec VALIDATION_TIMEOUT_SECONDS (current - sent)) as [Hlt|_]; [lia|].
  by repeat split.
Qed.

(** C10. When the second field of the challenge has no number in it, the
    parsed time is NaN, so is the elapsed time, the comparison with the
    timeout is false, and [submitStar] goes on to the signature check: the
    check is called on the challenge, and the call ends as the check decides,
    never with the message for a late submission. *)
Theorem submitStar_unparsable_time address message signature star w :
  parseInt (Str.split ":" message !! 1%nat) = NaN →
  elapsed Date_getTime w message = NaN
  ∧ js_gt (elapsed Date_getTime w message) VALIDATION_TIMEOUT_SECONDS = false
  ∧ fst (submit address message signature star w) ≠ Rejected expired_message
  ∧ fst (submit address message signature star w)
    = (if verify message address signature
       then Resolved (length (heap w))
       else Rejected invalid_signature_message)
  ∧ verified (snd (submit address message signature star w))
    = verified w ++ [(message, address, signature)].
Proof.
  intros Hnan.
  assert (elapsed Date_getTime w message = NaN) as He.
  { unfold elapsed. rewrite Hnan. by destruct (ToNumber _). }
  rewrite submitStar_cases, He. simpl.
  destruct (verify message address signature).
  - match goal with |- context [addNewBlock _ _ ?d ?w1] =>
      destruct (addNewBlock_effect d w1) as (w' & -> & _ & _ & _ & Hv) end.
    simpl. by repeat split.
  - by repeat split.
Qed.

End Submission.

(** ** The genesis block *)

Section Genesis.

Variable SHA256 : string -> string.
Variable verify : string -> string -> string -> bool.
Variable Date_getTime : nat -> Z.

Local Abbreviation exec := (exec SHA256 verify Date_getTime).

(** The block that making a block and appending it leaves in the store. *)
Lemma addNewBlock_block data w :
  ∃ w', addNewBlock SHA256 Date_getTime data w = (Resolved (length (heap w)), w')
    ∧ chain w' = chain w ++ [length (heap w)]
    ∧ height w' = height w + 1
    ∧ Block.height (deref w' (length (heap w))) = height w + 1
    ∧ Block.body (deref w' (length (heap w))) = data.
Proof.
  unfold addNewBlock, bind.
  destruct (new_Block data w) as [r w1] eqn:E.
  unfold new_Block in E. inversion E; subst; clear E.
  set (w1 := set_heap (heap w ++ [Block.new data]) w).
  assert (length (heap w) < length (heap w1))%nat as Hlt
    by (simpl; rewrite length_app; simpl; lia).
  destruct (_addBlock_effect SHA256 Date_getTime w1 (length (heap w)) Hlt)
    as (w' & -> & Hc & Hh & _ & _ & _ & Hnew & _).
  exists w'. repeat split; try done.
  - rewrite Hnew. unfold appended. by destruct (last (chain w1)).
  - rewrite Hnew. unfold appended.
    change (deref w1 (length (heap w))) with (deref (snd (new_Block data w)) (length (heap w))).
    rewrite deref_new_Block_new.
    by destruct (last (chain w1)).
Qed.

Lemma initializeChain_noop w :
  height w ≠ -1 → initializeChain SHA256 Date_getTime w = (Resolved tt, w).
Proof.
  intros Hh. unfold initializeChain, bind, gets.
  destruct (Z.eqb_spec (height w) (-1)); done.
Qed.

Lemma initializeChain_genesis w :
  height w = -1 →
  initializeChain SHA256 Date_getTime w
  = (Resolved tt, snd (addNewBlock SHA256 Date_getTime (JStr "Genesis Block") w)).
Proof.
  intros Hh. unfold initializeChain, bind, gets. rewrite Hh.
  destruct (addNewBlock_block (JStr "Genesis Block") w) as (w' & Heq & _).
  unfold addNewBlock, bind, new_Block in *. simpl in *.
  rewrite Heq. reflexivity.
Qed.

Lemma initializeChain_height w :
  height (exec InitializeChain w) ≠ -1.
Proof.
  simpl. destruct (Z.eq_dec (height w) (-1)) as [Heq|Hne].
  - rewrite initializeChain_genesis by done. simpl.
    destruct (addNewBlock_block (JStr "Genesis Block") w) as (w' & -> & _ & Hh & _).
    simpl. lia.
  - by rewrite initializeChain_noop.
Qed.

(** What [new Blockchain()] leaves behind. *)
Lemma fresh_ledger_genesis w0 :
  let ledger := fresh_ledger SHA256 Date_getTime w0 in
  let genesis := length (heap w0) in
  chain ledger = [genesis]
  ∧ height ledger = 0
  ∧ Block.height (deref ledger genesis) = 0
  ∧ Block.body (deref ledger genesis) = JStr "Genesis Block".
Proof.
  intros ledger genesis.
  assert (ledger = snd (addNewBlock SHA256 Date_getTime (JStr "Genesis Block")
                          (set_height (-1) (set_chain [] w0)))) as Hl.
  { change ledger
      with (snd (initializeChain SHA256 Date_getTime (set_height (-1) (set_chain [] w0)))).
    by rewrite initializeChain_genesis. }
  destruct (addNewBlock_block (JStr "Genesis Block") (set_height (-1) (set_chain [] w0)))
    as (w' & Heq & Hc & Hh & Hbh & Hbd).
  rewrite Heq in Hl. simpl in Hl, Hc, Hh, Hbh, Hbd. subst w'.
  by repeat split.
Qed.

(** C6. A new ledger holds exactly one record, the genesis block, at height
    0; calling [initializeChain] on it any number of times leaves the world
    as it is; and in any world at all a second call changes nothing the
    first call left. *)
Theorem initializeChain_idempotent w0 w n :
  let ledger := fresh_ledger SHA256 Date_getTime w0 in
  let genesis := length (heap w0) in
  chain ledger = [genesis]
  ∧ height ledger = 0
  ∧ Block.height (deref ledger genesis) = 0
  ∧ Block.body (deref ledger genesis) = JStr "Genesis Block"
  ∧ Nat.iter n (exec InitializeChain) ledger = ledger
  ∧ initializeChain SHA256 Date_getTime (exec InitializeChain w)
    = (Resolved tt, exec InitializeChain w).
Proof.
  intros ledger genesis.
  destruct (fresh_ledger_genesis w0) as (Hc & Hh & Hbh & Hbd).
  repeat split; try done.
  - induction n as [|n IH]; [done|]. simpl. rewrite IH.
    rewrite initializeChain_noop; [done|]. unfold ledger. by rewrite Hh.
  - apply initializeChain_noop, initializeChain_height.
Qed.

End Genesis.

(** ** Heights, links and the error log along a history *)

Section History.

Variable SHA256 : string -> string.
Variable verify : string -> string -> string -> bool.
Variable Date_getTime : nat -> Z.

Local Abbreviation step := (step SHA256 Date_getTime).
Local Abbreviation exec := (exec SHA256 verify Date_getTime).
Local Abbreviation run := (run SHA256 verify Date_getTime).
Local Abbreviation all_admissible := (all_admissible SHA256 verify Date_getTime).

Lemma heights_steps w w' :
  allocated w → heights_ok w → rtc step w w' → allocated w' ∧ heights_ok w'.
Proof.
  intros Hal Hh Hs. induction Hs as [|w1 w2 w3 Hs _ IH]; [done|].
  apply IH; eauto using allocated_step, heights_step.
Qed.

(** A step leaves the records of the chain as they are, and in the chain. *)
Lemma stored_step w w' l :
  allocated w → l ∈ chain w → step w w' → l ∈ chain w' ∧ deref w' l = deref w l.
Proof.
  intros Hal Hl [? Hsame|data|block Hnin Hb].
  - pose proof Hsame as (_ & Hc & _).
    rewrite Hc. split; [done|]. by apply same_ledger_deref.
  - split; [done|]. apply deref_new_Block_old. by apply Hal.
  - destruct (_addBlock_effect SHA256 Date_getTime w block Hb)
      as (w2 & Heq & Hc & _ & _ & _ & _ & _ & Hold).
    rewrite Heq. simpl. split.
    + rewrite Hc. apply elem_of_app. by left.
    + apply Hold. by intros ->.
Qed.

Lemma stored_steps w w' l :
  allocated w → l ∈ chain w → rtc step w w' →
  allocated w' ∧ l ∈ chain w' ∧ deref w' l = deref w l.
Proof.
  intros Hal Hl Hs. induction Hs as [|w1 w2 w3 Hs _ IH]; [done|].
  destruct (stored_step w1 w2 l Hal Hl Hs) as [Hl2 Heq].
  destruct IH as (Hal3 & Hl3 & Heq3); [by eapply allocated_step|done|].
  repeat split; [done..|]. by rewrite Heq3.
Qed.

Lemma stored_run calls w l :
  allocated w → l ∈ chain w → all_admissible w calls = true →
  deref (run calls w) l = deref w l.
Proof.
  revert w. induction calls as [|c calls IH]; intros w Hal Hl Hadm; [done|].
  simpl in Hadm. apply andb_prop in Hadm as [H1 H2].
  destruct (stored_steps w (exec c w) l Hal Hl) as (Hal' & Hl' & Heq).
  { by apply (exec_steps SHA256 verify Date_getTime). }
  simpl. rewrite IH by done. exact Heq.
Qed.

(** C7, as amended.  On a new ledger, after any sequence of calls in which
    [_addBlock] is only given blocks that the chain does not hold yet, the
    record at position [i] has height [i] and the cached height is the
    length of the chain minus one; and every single such call keeps these
    two facts (and the chain's references allocated) from any world in
    which they hold. *)
Theorem heights_invariant :
  (∀ w0 calls,
     all_admissible (fresh_ledger SHA256 Date_getTime w0) calls = true →
     heights_ok (run calls (fresh_ledger SHA256 Date_getTime w0)))
  ∧ (∀ w c,
       allocated w → heights_ok w → admissible w c = true →
       allocated (exec c w) ∧ heights_ok (exec c w)).
Proof.
  split.
  - intros w0 calls Hadm.
    apply (chain_ok_run SHA256 verify Date_getTime); [|done].
    apply chain_ok_fresh_ledger. exact verify.
  - intros w c Hal Hh Hadm. apply (heights_steps w); [done..|].
    by apply (exec_steps SHA256 verify Date_getTime).
Qed.

(** C8. On a new ledger, after any sequence of calls in which [_addBlock]
    is only given blocks that the chain does not hold yet (so that no record
    is written to after it was appended), [validateChain] resolves with the
    empty list. *)
Theorem validateChain_untampered w0 calls :
  all_admissible (fresh_ledger SHA256 Date_getTime w0) calls = true →
  fst (validateChain SHA256 (run calls (fresh_ledger SHA256 Date_getTime w0)))
  = Resolved [].
Proof.
  intros Hadm.
  assert (chain_ok (run calls (fresh_ledger SHA256 Date_getTime w0))) as [_ _ Hh Hlk].
  { apply (chain_ok_run SHA256 verify Date_getTime); [|done].
    apply chain_ok_fresh_ledger. exact verify. }
  by apply validateChain_linked.
Qed.

Lemma computeHash_set_hash h b :
  Block.computeHash SHA256 (Block.set_hash h b) = Block.computeHash SHA256 b.
Proof. reflexivity. Qed.

Lemma set_hash_same b : Block.set_hash (Block.hash b) b = b.
Proof. by destruct b. Qed.

(** C5, as amended.  [_addBlock] stores the digest of the JSON text of the
    whole block, in which the hash property holds what it held when the
    block was handed over.  For a block whose hash was still empty this is
    [computeHash()], a function of height, time, link and payload alone, and
    the block passes [validate()].  No later call changes the stored block,
    as long as [_addBlock] is not given a block of the chain again. *)
Theorem hash_at_append w block calls :
  (block < length (heap w))%nat →
  let w' := exec (AddBlock block) w in
  let b := deref w' block in
  Block.hash b
  = Some (SHA256 (Json.stringify
                    (Block.toJSON (Block.set_hash (Block.hash (deref w block)) b))))
  ∧ (Block.hash (deref w block) = None →
     Block.hash b = Some (Block.computeHash SHA256 b)
     ∧ Block.validate SHA256 b = true)
  ∧ (∀ b', Block.height b' = Block.height b → Block.time b' = Block.time b →
           Block.previousBlockHash b' = Block.previousBlockHash b →
           Block.body b' = Block.body b →
           Block.computeHash SHA256 b' = Block.computeHash SHA256 b)
  ∧ (allocated w → block ∉ chain w → all_admissible w' calls = true →
     deref (run calls w') block = b).
Proof.
  intros Hb w' b.
  destruct (_addBlock_effect SHA256 Date_getTime w block Hb)
    as (w2 & Heq & Hc & _ & _ & _ & _ & Hnew & _).
  assert (w' = w2) as Hw by (unfold w'; simpl; by rewrite Heq).
  assert (b = appended SHA256 Date_getTime w block) as Hbeq
    by (unfold b; by rewrite Hw).
  assert (Block.hash b
          = Some (SHA256 (Json.stringify
                    (Block.toJSON (Block.set_hash (Block.hash (deref w block)) b))))) as H1.
  { rewrite Hbeq. unfold appended.
    destruct (last (chain w)) as [p|]; simpl; do 3 f_equal;
      by destruct (deref w block). }
  split; [exact H1|]. split; [|split].
  - intros Hempty.
    assert (Block.hash b = Some (Block.computeHash SHA256 b)) as H2
      by (rewrite H1; unfold Block.computeHash; by rewrite Hempty).
    split; [exact H2|]. unfold Block.validate. by apply bool_decide_eq_true.
  - intros b' E1 E2 E3 E4. unfold Block.computeHash, Block.set_hash.
    by rewrite E1, E2, E3, E4.
  - intros Hal Hnin Hadm. apply stored_run; [| |done].
    + apply (allocated_step SHA256 Date_getTime w); [done|].
      unfold w'. simpl. by apply step_AddBlock.
    + rewrite Hw, Hc. apply elem_of_app. right. by apply list_elem_of_singleton.
Qed.

End History.

(** ** Stars by owner *)

Lemma filter_claims address (claims : list (string * JSON)) :
  List.filter (fun blockData => Json.is_string (Json.get "owner" blockData) address)
    (map (fun c => claim c.1 c.2) claims)
  = map (fun c => claim c.1 c.2) (List.filter (fun c => String.eqb c.1 address) claims).
Proof.
  induction claims as [|[o s] claims IH]; [done|].
  simpl. rewrite IH. by destruct (String.eqb o address).
Qed.

Lemma getStars_of_claims address w (claims : list (string * JSON)) :
  map (fun block => Block.getBData (deref w block)) (tail (chain w))
  = map (fun c => claim c.1 c.2) claims →
  getStarsByWalletAddress address w
  = (Resolved (map (fun c => claim c.1 c.2)
                 (List.filter (fun c => String.eqb c.1 address) claims)), w).
Proof.
  intros Hclaims.
  unfold getStarsByWalletAddress, bind, gets, resolve.
  simpl. rewrite Hclaims. by rewrite filter_claims.
Qed.

(** C9. On a chain whose records after the first carry claims (an owner and
    a star each), [getStarsByWalletAddress] resolves with the claims of the
    given owner and no others, in the order of the chain; the first record
    is not looked at, whatever it holds. *)
Theorem getStarsByWalletAddress_owner address w (claims : list (string * JSON)) :
  map (fun block => Block.getBData (deref w block)) (tail (chain w))
  = map (fun c => claim c.1 c.2) claims →
  getStarsByWalletAddress address w
  = (Resolved (map (fun c => claim c.1 c.2)
                 (List.filter (fun c => String.eqb c.1 address) claims)), w).
Proof. apply getStars_of_claims. Qed.

(** ** The operations on a small ledger *)

(** C1, at inputs where the error log and the two checks part.  On the
    chain of the unit test (genesis, "foo", "bar", "qux"):
    - the payload of "bar" is overwritten: the record fails its own check,
      and the error log is empty;
    - the hash of "qux", the last record, is overwritten: the record fails
      its own check, and the error log is empty;
    - the link of "bar" is overwritten: "foo" passes its own check and is no
      longer pointed back at, "bar" fails its own check, and the error log
      is empty. *)
Theorem validateChain_misses_failed_checks :
  let payload := mutate 2 (Block.set_body (JStr "baz")) Fixture.tested in
  let last_hash := mutate 3 (Block.set_hash (Some "00"%string)) Fixture.tested in
  let relinked := mutate 2 (Block.set_previousBlockHash (Some "00"%string)) Fixture.tested in
  (validity Fixture.digest payload = [true; true; false; true]
   ∧ fst (validateChain Fixture.digest payload) = Resolved [])
  ∧ (validity Fixture.digest last_hash = [true; true; true; false]
     ∧ fst (validateChain Fixture.digest last_hash) = Resolved [])
  ∧ (validity Fixture.digest relinked = [true; true; false; true]
     ∧ Block.previousBlockHash (deref relinked 2) ≠ Block.hash (deref relinked 1)
     ∧ fst (validateChain Fixture.digest relinked) = Resolved []).
Proof.
  repeat split; try (vm_compute; reflexivity).
  vm_compute. discriminate.
Qed.

(** C2, field by field, on the record "bar" of the unit test's chain, which
    has a successor: after its payload, its time or its link is overwritten
    the error log is empty; so it is after its height is set to one that has
    no successor; only an overwritten hash puts the record in the log. *)
Theorem validateChain_misses_tampering :
  fst (validateChain Fixture.digest
         (mutate 2 (Block.set_body (JStr "baz")) Fixture.tested)) = Resolved []
  ∧ fst (validateChain Fixture.digest
           (mutate 2 (Block.set_time "1500000000") Fixture.tested)) = Resolved []
  ∧ fst (validateChain Fixture.digest
           (mutate 2 (Block.set_previousBlockHash (Some "00"%string)) Fixture.tested))
    = Resolved []
  ∧ fst (validateChain Fixture.digest
           (mutate 2 (Block.set_height 7) Fixture.tested)) = Resolved []
  ∧ fst (validateChain Fixture.digest
           (mutate 2 (Block.set_hash (Some "00"%string)) Fixture.tested)) = Resolved [2%nat].
Proof. repeat split; vm_compute; reflexivity. Qed.

(** C5 as first stated fails: two blocks that agree on height, time, link
    and payload get different hashes when one of them held a hash on being
    handed to [_addBlock]; and a block of the chain handed to [_addBlock]
    again has its hash computed anew. *)
Lemma hash_covers_stored_hash :
  let made := exec Fixture.digest Fixture.signed Fixture.clock_ms (New (JStr "foo")) Fixture.ledger in
  let add := exec Fixture.digest Fixture.signed Fixture.clock_ms (AddBlock 1) in
  let plain := deref (add made) 1 in
  let preset := deref (add (mutate 1 (Block.set_hash (Some "00"%string)) made)) 1 in
  (Block.height plain = Block.height preset
   ∧ Block.time plain = Block.time preset
   ∧ Block.previousBlockHash plain = Block.previousBlockHash preset
   ∧ Block.body plain = Block.body preset
   ∧ Block.hash plain ≠ Block.hash preset)
  ∧ Block.hash (deref (add (add made)) 1) ≠ Block.hash (deref (add made) 1).
Proof.
  repeat split; try (vm_compute; reflexivity); vm_compute; discriminate.
Qed.

(** C7 as first stated fails: a block handed to [_addBlock] twice sits at
    positions 1 and 2 of the chain with height 2. *)
Lemma reappended_block_height :
  let w := run Fixture.digest Fixture.signed Fixture.clock_ms
             [New (JStr "foo"); AddBlock 1; AddBlock 1] Fixture.ledger in
  chain w = [0; 1; 1]%nat
  ∧ Block.height (deref w 1) = 2
  ∧ ¬ heights_ok w.
Proof.
  repeat split; try (vm_compute; reflexivity).
  intros [Hh _]. specialize (Hh 1%nat 1%nat eq_refl). vm_compute in Hh. discriminate.
Qed.

(** Scenario C: a challenge issued 1000 seconds before the submission,
    signed as the wallet check wants it, is refused as late. *)
Lemma submitStar_expired_witness :
  let message := Fixture.challenge "alice" "1599999004" in
  let signature := Fixture.signature "alice" message in
  Fixture.signed message "alice" signature = true
  ∧ submitStar Fixture.digest Fixture.signed Fixture.clock_ms
      "alice" message signature (JStr "Vega") Fixture.tested
    = (Rejected expired_message, set_clock 5 Fixture.tested).
Proof.
  split; [vm_compute; reflexivity|].
  apply (submitStar_expired Fixture.digest Fixture.signed Fixture.clock_ms
           "alice" (Fixture.challenge "alice" "1599999004")
           (Fixture.signature "alice" (Fixture.challenge "alice" "1599999004"))
           (JStr "Vega") Fixture.tested 1600000004 1599999004);
    vm_compute; reflexivity.
Defined.

(** A challenge issued three seconds before the submission, with a
    signature the wallet check refuses. *)
Lemma submitStar_invalid_signature_witness :
  let message := Fixture.challenge "alice" "1600000001" in
  fst (submitStar Fixture.digest Fixture.signed Fixture.clock_ms
         "alice" message "forged" (JStr "Vega") Fixture.tested)
  = Rejected invalid_signature_message
  ∧ chain (snd (submitStar Fixture.digest Fixture.signed Fixture.clock_ms
                  "alice" message "forged" (JStr "Vega") Fixture.tested))
    = [0; 1; 2; 3]%nat.
Proof.
  destruct (submitStar_invalid_signature Fixture.digest Fixture.signed Fixture.clock_ms
              "alice" (Fixture.challenge "alice" "1600000001") "forged"
              (JStr "Vega") Fixture.tested 1600000004 1600000001)
    as (Hr & (_ & Hc & _) & _); try (vm_compute; reflexivity).
  - vm_compute. discriminate.
  - split; [exact Hr|]. rewrite Hc. vm_compute; reflexivity.
Defined.

(** A challenge issued for a wallet address with a colon in it: its second
    field is the rest of the address. *)
Lemma submitStar_unparsable_time_witness :
  let message := Fixture.challenge "my:wallet" "1600000001" in
  Str.split ":" message !! 1%nat = Some "wallet"%string
  ∧ fst (submitStar Fixture.digest Fixture.signed Fixture.clock_ms
           "my:wallet" message "forged" (JStr "Vega") Fixture.tested)
    = Rejected invalid_signature_message
  ∧ fst (submitStar Fixture.digest Fixture.signed Fixture.clock_ms
           "my:wallet" message (Fixture.signature "my:wallet" message) (JStr "Vega")
           (set_clock 1000 Fixture.tested))
    = Resolved 4%nat.
Proof.
  split; [vm_compute; reflexivity|]. split.
  - destruct (submitStar_unparsable_time Fixture.digest Fixture.signed Fixture.clock_ms
                "my:wallet" (Fixture.challenge "my:wallet" "1600000001") "forged"
                (JStr "Vega") Fixture.tested) as (_ & _ & _ & Hr & _);
      [vm_compute; reflexivity|].
    rewrite Hr. vm_compute; reflexivity.
  - destruct (submitStar_unparsable_time Fixture.digest Fixture.signed Fixture.clock_ms
                "my:wallet" (Fixture.challenge "my:wallet" "1600000001")
                (Fixture.signature "my:wallet" (Fixture.challenge "my:wallet" "1600000001"))
                (JStr "Vega") (set_clock 1000 Fixture.tested)) as (_ & _ & _ & Hr & _);
      [vm_compute; reflexivity|].
    rewrite Hr. vm_compute; reflexivity.
Defined.

(** A block made for the unit test's chain, appended, and left alone by the
    calls that follow. *)
Lemma hash_at_append_witness :
  let made := exec Fixture.digest Fixture.signed Fixture.clock_ms (New (JStr "quux")) Fixture.tested in
  let later := [ ValidateChain; Fixture.submission "alice" "1600000005" (JStr "Vega");
                 New (JStr "corge"); AddBlock 6; InitializeChain ] in
  let w' := exec Fixture.digest Fixture.signed Fixture.clock_ms (AddBlock 4) made in
  Block.hash (deref made 4) = None
  ∧ Block.validate Fixture.digest (deref w' 4) = true
  ∧ deref (run Fixture.digest Fixture.signed Fixture.clock_ms later w') 4 = deref w' 4.
Proof.
  intros made later w'.
  destruct (hash_at_append Fixture.digest Fixture.signed Fixture.clock_ms made 4%nat later)
    as (_ & Hv & _ & Hd); [vm_compute; lia|].
  split; [vm_compute; reflexivity|].
  split; [apply Hv; vm_compute; reflexivity|].
  apply Hd.
  - refine (proj1 (Forall_forall (λ l, (l < length (heap made))%nat) (chain made)) _).
    vm_compute. repeat constructor.
  - apply (bool_decide_unpack _). vm_compute. exact I.
  - vm_compute; reflexivity.
Defined.

(** The unit test's calls, and a submitted star after them. *)
Lemma heights_invariant_witness :
  heights_ok
    (run Fixture.digest Fixture.signed Fixture.clock_ms
       (Fixture.foo_bar_qux ++ [Fixture.submission "alice" "1600000004" (JStr "Vega")])
       (fresh_ledger Fixture.digest Fixture.clock_ms Fixture.empty)).
Proof.
  apply (proj1 (heights_invariant Fixture.digest Fixture.signed Fixture.clock_ms)).
  vm_compute; reflexivity.
Defined.

(** Scenario A: "foo", "bar" and "qux" appended to a new ledger. *)
Lemma validateChain_untampered_witness :
  fst (validateChain Fixture.digest Fixture.tested) = Resolved [].
Proof.
  apply (validateChain_untampered Fixture.digest Fixture.signed Fixture.clock_ms
           Fixture.empty Fixture.foo_bar_qux).
  vm_compute; reflexivity.
Defined.

(** The stars of one wallet in a registry of three. *)
Lemma getStarsByWalletAddress_owner_witness :
  getStarsByWalletAddress "alice" Fixture.registry
  = (Resolved [claim "alice" (JStr "Vega"); claim "alice" (JStr "Altair")],
     Fixture.registry).
Proof.
  apply (getStarsByWalletAddress_owner "alice" Fixture.registry
           [("alice"%string, JStr "Vega"); ("bob"%string, JStr "Deneb");
            ("alice"%string, JStr "Altair")]).
  vm_compute; reflexivity.
Defined.

(** ** What the error log holds, and the lookups *)

Lemma filter_from_single {A} (keep : A → nat → bool) s l i x :
  l !! i = Some x → keep x (s + i)%nat = true →
  (∀ j y, j ≠ i → l !! j = Some y → keep y (s + j)%nat = false) →
  filter_from keep s l = [x].
Proof.
  revert s i. induction l as [|y l IH]; intros s i Hi Hk Hothers.
  - by rewrite lookup_nil in Hi.
  - destruct i as [|i]; simpl in *.
    + inversion Hi; subst. rewrite Nat.add_0_r in Hk. rewrite Hk. f_equal.
      apply filter_from_nil. intros j z Hj.
      specialize (Hothers (S j) z). rewrite Nat.add_succ_r in Hothers.
      by apply Hothers.
    + pose proof (Hothers 0%nat y) as H0. rewrite Nat.add_0_r in H0.
      rewrite H0 by done.
      apply (IH (S s) i); [done|by rewrite Nat.add_succ_r in Hk|].
      intros j z Hne Hj. specialize (Hothers (S j) z).
      rewrite Nat.add_succ_r in Hothers. apply Hothers; [lia|done].
Qed.

Lemma find_height (P : nat → Z) (l : list nat) s h :
  (∀ i x, l !! i = Some x → P x = Z.of_nat (s + i)) →
  List.find (fun x => P x =? h) l = Array_at l (h - Z.of_nat s).
Proof.
  revert s. induction l as [|y l IH]; intros s Hp; simpl.
  - unfold Array_at. destruct (_ <? 0); [done|]. by rewrite lookup_nil.
  - pose proof (Hp 0%nat y eq_refl) as Hy. rewrite Nat.add_0_r in Hy.
    destruct (Z.eqb_spec (P y) h) as [Heq|Hne].
    + unfold Array_at. replace (h - Z.of_nat s) with 0 by lia. done.
    + rewrite (IH (S s)).
      * unfold Array_at.
        destruct (Z.ltb_spec (h - Z.of_nat (S s)) 0), (Z.ltb_spec (h - Z.of_nat s) 0);
          try done; try lia.
        replace (Z.to_nat (h - Z.of_nat s)) with (S (Z.to_nat (h - Z.of_nat (S s)))) by lia.
        done.
      * intros i x Hi. rewrite (Hp (S i) x Hi). f_equal. lia.
Qed.

Section Reports.

Variable SHA256 : string -> string.

(** X1. What [validateChain] reports when heights agree with positions: the
    promise resolves, the world is untouched, the log lists records of the
    chain in the order of the chain, and a record is in it exactly when it
    fails its own check and, besides, its successor does not carry its hash.
    A record that fails only one of the two checks is not reported. *)
Theorem validateChain_error_log w :
  heights_ok w →
  ∃ log, validateChain SHA256 w = (Resolved log, w)
    ∧ sublist log (chain w)
    ∧ ∀ l, l ∈ log ↔
           ∃ i, chain w !! i = Some l ∧ self_invalid SHA256 w l ∧ link_broken w i l.
Proof.
  intros Hok. eexists. split; [apply validateChain_eq|]. split.
  - apply filter_from_sublist.
  - intros l. by apply validateChain_reports.
Qed.

(** X2. Scenario B of the unit test, on any chain: when every record passes its
    own check and the links are intact, overwriting the hash of a record
    that has a successor makes the error log hold that record and nothing
    else. *)
Theorem validateChain_overwritten_hash w i l l' h :
  chain_ok w →
  (∀ x, x ∈ chain w → Block.validate SHA256 (deref w x) = true) →
  chain w !! i = Some l → chain w !! S i = Some l' →
  Some h ≠ Block.hash (deref w l) →
  fst (validateChain SHA256 (mutate l (Block.set_hash (Some h)) w)) = Resolved [l].
Proof.
  intros [Hal Hnd Hh Hlk] Hvalid Hl Hl' Hne.
  set (w' := mutate l (Block.set_hash (Some h)) w).
  assert (l < length (heap w))%nat as Hlt by (apply Hal; by eapply list_elem_of_lookup_2).
  assert (∀ x, deref w' x = if decide (l = x) then Block.set_hash (Some h) (deref w l)
                            else deref w x) as Hd
    by (intros x; by apply deref_mutate).
  assert (heights_ok w') as Hh'.
  { destruct Hh as [Hhs Hc]. split; [|done]. intros j x Hx.
    rewrite Hd. case_decide; subst; by apply Hhs. }
  assert (l ≠ l') as Hll'.
  { intros <-. pose proof (NoDup_lookup _ _ _ _ Hnd Hl Hl'). lia. }
  rewrite validateChain_eq. simpl. f_equal.
  apply (filter_from_single _ 0%nat _ i); [done| |]; simpl.
  - rewrite in_error_log_at by done.
    change (chain w') with (chain w). rewrite Hl'.
    rewrite !Hd, decide_True, decide_False by done.
    apply andb_true_intro. split; apply negb_true_iff, bool_decide_eq_false.
    + simpl. rewrite computeHash_set_hash.
      pose proof (Hvalid l ltac:(by eapply list_elem_of_lookup_2)) as Hv.
      apply bool_decide_eq_true in Hv. congruence.
    + simpl. rewrite (Hlk i l l' Hl Hl'). congruence.
  - intros j x Hj Hx. change (chain w') with (chain w) in Hx.
    rewrite in_error_log_at by done.
    assert (l ≠ x) as Hlx.
    { intros <-. by pose proof (NoDup_lookup _ _ _ _ Hnd Hl Hx). }
    rewrite (Hd x), decide_False by done.
    rewrite Hvalid by (by eapply list_elem_of_lookup_2). done.
Qed.

End Reports.

(** X3. Looking a record up by its height, when heights agree with positions,
    is reading the chain at that position; a height that is negative or
    beyond the chain finds nothing. *)
Theorem getBlockByHeight_position w h :
  heights_ok w → getBlockByHeight h w = (Resolved (Array_at (chain w) h), w).
Proof.
  intros [Hh _]. unfold getBlockByHeight, gets. do 2 f_equal.
  rewrite (find_height (fun x => Block.height (deref w x)) (chain w) 0 h).
  - f_equal. lia.
  - intros i x Hx. by apply Hh.
Qed.

(** ** Text and numbers: the clock reading in a challenge *)

Lemma append_nil_l (t : string) : EmptyString +:+ t = t.
Proof. reflexivity. Qed.

Lemma append_cons c (s t : string) : String c s +:+ t = String c (s +:+ t).
Proof. reflexivity. Qed.

Lemma append_assoc (s t u : string) : (s +:+ t) +:+ u = s +:+ (t +:+ u).
Proof.
  induction s as [|c s IH]; [done|]. rewrite !append_cons. by f_equal.
Qed.

Lemma length_append (s t : string) :
  String.length (s +:+ t) = (String.length s + String.length t)%nat.
Proof.
  induction s as [|c s IH]; [done|]. rewrite append_cons. simpl. by f_equal.
Qed.

Lemma substring_prefix (s t : string) :
  String.substring 0 (String.length s) (s +:+ t) = s.
Proof.
  induction s as [|c s IH]; [by destruct t|]. rewrite append_cons. simpl. by f_equal.
Qed.

Lemma substring_0_0 (s : string) : String.substring 0 0 s = EmptyString.
Proof. by destruct s. Qed.

Lemma digit_char_is_digit d :
  0 <= d < 10 →
  Str.is_digit (Str.digit_char d) = true ∧ Str.digit_value (Str.digit_char d) = d.
Proof.
  intros Hd.
  assert (d = 0 ∨ d = 1 ∨ d = 2 ∨ d = 3 ∨ d = 4 ∨ d = 5 ∨ d = 6 ∨ d = 7 ∨ d = 8 ∨ d = 9)
    as Hcases by lia.
  repeat destruct Hcases as [->|Hcases]; try subst d; by vm_compute.
Qed.

Lemma all_digits_app s t :
  Str.all_digits (s +:+ t) = Str.all_digits s && Str.all_digits t.
Proof.
  induction s as [|c s IH]; [done|]. rewrite append_cons. simpl.
  rewrite IH. by rewrite andb_assoc.
Qed.

Lemma digits_value_app acc s t :
  Str.all_digits s = true →
  Str.digits_value acc (s +:+ t) = Str.digits_value (Str.digits_value acc s) t.
Proof.
  revert acc. induction s as [|c s IH]; intros acc Hs; [done|].
  rewrite append_cons. simpl in *.
  apply andb_prop in Hs as [Hc Hs]. rewrite Hc. by apply IH.
Qed.

Lemma digits_of_app fuel n acc :
  Str.digits_of fuel n acc = Str.digits_of fuel n EmptyString +:+ acc.
Proof.
  revert n acc. induction fuel as [|fuel IH]; intros n acc; simpl; [done|].
  destruct (n <? 10); [done|].
  rewrite IH. rewrite (IH _ (String _ EmptyString)). by rewrite append_assoc.
Qed.

Lemma digits_of_small fuel n :
  0 <= n < 10 →
  Str.digits_of fuel n EmptyString = String (Str.digit_char n) EmptyString.
Proof.
  intros Hn. destruct fuel; simpl; rewrite Z.mod_small by lia; [done|].
  by destruct (Z.ltb_spec n 10); [|lia].
Qed.

Lemma digits_of_step fuel n :
  10 <= n →
  Str.digits_of (S fuel) n EmptyString
  = Str.digits_of fuel (n / 10) EmptyString +:+ String (Str.digit_char (n mod 10)) EmptyString.
Proof.
  intros Hn. simpl. destruct (Z.ltb_spec n 10); [lia|]. apply digits_of_app.
Qed.

Lemma single_digit d :
  0 <= d < 10 →
  Str.all_digits (String (Str.digit_char d) EmptyString) = true
  ∧ ∀ acc, Str.digits_value acc (String (Str.digit_char d) EmptyString)
           = Some (10 * default 0 acc + d).
Proof.
  intros Hd. destruct (digit_char_is_digit d Hd) as [Hdig Hval].
  split.
  - change (Str.is_digit (Str.digit_char d) && true = true). by rewrite Hdig.
  - intros acc.
    change (Str.digits_value acc (String (Str.digit_char d) EmptyString))
      with (if Str.is_digit (Str.digit_char d)
            then Some (10 * default 0 acc + Str.digit_value (Str.digit_char d))
            else acc).
    by rewrite Hdig, Hval.
Qed.

(** With enough fuel the digits are digits, and read back as the number. *)
Lemma digits_of_value fuel n :
  0 <= n < 10 ^ Z.of_nat (S fuel) →
  Str.all_digits (Str.digits_of fuel n EmptyString) = true
  ∧ Str.digits_value None (Str.digits_of fuel n EmptyString) = Some n.
Proof.
  revert n. induction fuel as [|fuel IH]; intros n Hn.
  - change (10 ^ Z.of_nat 1) with 10 in Hn.
    rewrite digits_of_small by lia.
    destruct (single_digit n) as [Hall Hval]; [lia|]. split; [done|].
    rewrite Hval. f_equal.
  - destruct (Z.lt_ge_cases n 10) as [Hsmall|Hbig].
    + rewrite digits_of_small by lia.
      destruct (single_digit n) as [Hall Hval]; [lia|]. split; [done|].
      rewrite Hval. f_equal.
    + rewrite digits_of_step by done.
      assert (0 <= n / 10 < 10 ^ Z.of_nat (S fuel)) as Hdiv.
      { split; [apply Z.div_pos; lia|].
        apply Z.div_lt_upper_bound; [lia|].
        rewrite <- Z.pow_succ_r by lia. rewrite <- Nat2Z.inj_succ. lia. }
      destruct (IH _ Hdiv) as [Hall Hval].
      destruct (single_digit (n mod 10)) as [Hd Hv];
        [apply Z.mod_pos_bound; lia|].
      split.
      * by rewrite all_digits_app, Hall, Hd.
      * rewrite digits_value_app, Hval, Hv by done.
        f_equal. change (default 0 (Some (n / 10))) with (n / 10).
        pose proof (Z.div_mod n 10). lia.
Qed.

Lemma enough_fuel n : 0 <= n → n < 10 ^ Z.of_nat (S (Z.to_nat (Z.log2 n))).
Proof.
  intros Hn. rewrite Nat2Z.inj_succ, Z2Nat.id by apply Z.log2_nonneg.
  destruct (Z.eq_dec n 0) as [->|Hne]; [done|].
  destruct (Z.log2_spec n) as [_ Hlt]; [lia|].
  eapply Z.lt_le_trans; [exact Hlt|].
  apply Z.pow_le_mono_l. lia.
Qed.

(** The text of a non-negative clock reading is its decimal digits. *)
Lemma of_Z_value n :
  0 <= n →
  Str.all_digits (Str.of_Z n) = true ∧ Str.digits_value None (Str.of_Z n) = Some n.
Proof.
  intros Hn. unfold Str.of_Z. destruct (Z.ltb_spec n 0); [lia|].
  apply digits_of_value. split; [done|by apply enough_fuel].
Qed.

(** Cutting the last three digits off divides by a thousand. *)
Lemma slice_digits fuel n :
  0 <= n < 10 ^ Z.of_nat (S fuel) →
  let s := Str.slice_0_minus3 (Str.digits_of fuel n EmptyString) in
  if n <? 1000 then s = EmptyString
  else Str.all_digits s = true ∧ Str.digits_value None s = Some (n / 1000).
Proof.
  intros Hn. unfold Str.slice_0_minus3.
  assert (∀ f m, 10 <= m < 10 ^ Z.of_nat (S f) →
            ∃ f', f = S f' ∧ 0 <= m / 10 < 10 ^ Z.of_nat (S f')) as Hstep.
  { intros [|f'] m Hm.
    - change (10 ^ Z.of_nat 1) with 10 in Hm. lia.
    - exists f'. split; [done|]. split; [apply Z.div_pos; lia|].
      apply Z.div_lt_upper_bound; [lia|].
      rewrite <- Z.pow_succ_r by lia. rewrite <- Nat2Z.inj_succ. lia. }
  destruct (Z.lt_ge_cases n 10) as [H1|H1].
  { rewrite digits_of_small by lia. by destruct (Z.ltb_spec n 1000); [|lia]. }
  destruct (Hstep fuel n) as (f1 & -> & Hn1); [lia|].
  rewrite digits_of_step by done.
  destruct (Z.lt_ge_cases (n / 10) 10) as [H2|H2].
  { rewrite digits_of_small by lia.
    destruct (Z.ltb_spec n 1000) as [_|Hge]; [done|].
    assert (n / 10 >= 100) by (apply Z.le_ge, Z.div_le_lower_bound; lia). lia. }
  destruct (Hstep f1 (n / 10)) as (f2 & -> & Hn2); [lia|].
  rewrite digits_of_step by done.
  destruct (Z.lt_ge_cases (n / 10 / 10) 10) as [H3|H3].
  { rewrite digits_of_small by lia.
    destruct (Z.ltb_spec n 1000) as [_|Hge]; [done|].
    assert (n / 10 / 10 >= 10).
    { apply Z.le_ge. rewrite Z.div_div by lia. apply Z.div_le_lower_bound; lia. }
    lia. }
  destruct (Hstep f2 (n / 10 / 10)) as (f3 & -> & Hn3); [lia|].
  rewrite digits_of_step by done.
  destruct (Z.ltb_spec n 1000) as [Hlt|_].
  { assert (n / 10 / 10 < 10); [|lia].
    rewrite Z.div_div by lia. apply Z.div_lt_upper_bound; lia. }
  rewrite !append_assoc. rewrite !append_cons, !append_nil_l.
  rewrite length_append. simpl String.length.
  replace (String.length (Str.digits_of f3 (n / 10 / 10 / 10) EmptyString) + 3 - 3)%nat
    with (String.length (Str.digits_of f3 (n / 10 / 10 / 10) EmptyString)) by lia.
  rewrite substring_prefix.
  replace (n / 1000) with (n / 10 / 10 / 10) by (rewrite !Z.div_div by lia; done).
  by apply digits_of_value.
Qed.

(** For a clock at or after the epoch, [timestamp()] reads, as a number, the
    clock reading in whole seconds. *)
Lemma ToNumber_all_digits s v :
  Str.all_digits s = true → Str.digits_value None s = Some v → ToNumber s = Num v.
Proof.
  intros Hall Hv. destruct s as [|c s]; [by inversion Hv|].
  unfold ToNumber. rewrite Hall, Hv.
  simpl in Hall. apply andb_prop in Hall as [Hc _].
  destruct c as [[] [] [] [] [] [] [] []]; try done; by vm_compute in Hc.
Qed.

Lemma parseInt_all_digits c s v :
  Str.all_digits (String c s) = true → Str.digits_value None (String c s) = Some v →
  parseInt (Some (String c s)) = Num v.
Proof.
  intros Hall Hv. simpl in Hall. apply andb_prop in Hall as [Hc Hs].
  unfold parseInt. simpl default.
  assert (Str.is_space c = false) as Hsp.
  { destruct c as [[] [] [] [] [] [] [] []]; try done; by vm_compute in Hc. }
  simpl Str.skip_spaces. rewrite Hsp.
  destruct c as [[] [] [] [] [] [] [] []]; try (by vm_compute in Hc);
    by rewrite Hv.
Qed.

Lemma split_nonempty sep s : Str.split sep s ≠ [].
Proof.
  destruct s as [|c s]; simpl; [done|].
  destruct (Ascii.eqb c sep); [done|]. by destruct (Str.split sep s).
Qed.

(** A text without the separator is one field, and stays the first field
    of what it is joined to. *)
Lemma split_field sep a r :
  Str.split sep a = [a] →
  Str.split sep (a +:+ String sep r) = a :: Str.split sep r.
Proof.
  induction a as [|c a IH]; intros Ha.
  - rewrite append_nil_l. simpl. by rewrite Ascii.eqb_refl.
  - rewrite append_cons. simpl in *.
    destruct (Ascii.eqb c sep); [by inversion Ha|].
    destruct (Str.split sep a) as [|f fs] eqn:Ef; [by apply split_nonempty in Ef|].
    inversion Ha; subst. by rewrite IH.
Qed.

Lemma all_digits_one_field s :
  Str.all_digits s = true → Str.split ":" s = [s].
Proof.
  induction s as [|c s IH]; intros Hs; [done|].
  simpl in *. apply andb_prop in Hs as [Hc Hs]. rewrite (IH Hs).
  destruct (Ascii.eqb_spec c ":") as [->|_]; [by vm_compute in Hc|done].
Qed.

Section Challenge.

Variable SHA256 : string -> string.
Variable verify : string -> string -> string -> bool.
Variable Date_getTime : nat -> Z.

Lemma stamp_value w :
  0 <= Date_getTime (clock w) →
  Str.all_digits (stamp Date_getTime w) = true
  ∧ ToNumber (stamp Date_getTime w) = Num (Date_getTime (clock w) / 1000).
Proof.
  intros Ht. unfold stamp, Str.of_Z.
  destruct (Z.ltb_spec (Date_getTime (clock w)) 0); [lia|].
  pose proof (slice_digits (Z.to_nat (Z.log2 (Date_getTime (clock w))))
                (Date_getTime (clock w))) as Hs.
  simpl in Hs.
  destruct (Z.ltb_spec (Date_getTime (clock w)) 1000) as [Hlt|Hge].
  - rewrite Hs by (split; [done|by apply enough_fuel]).
    split; [done|]. simpl. f_equal. symmetry. apply Z.div_small. lia.
  - destruct Hs as [Hall Hval]; [split; [done|by apply enough_fuel]|].
    split; [done|]. by apply ToNumber_all_digits.
Qed.

Lemma challenge_parse address w :
  Str.split ":" address = [address] →
  1000 <= Date_getTime (clock w) →
  parseInt (Str.split ":"
              (Str.join ":" [address; stamp Date_getTime w; "starRegistry"%string])
            !! 1%nat)
  = Num (Date_getTime (clock w) / 1000).
Proof.
  intros Haddr Ht. cbv [Str.join].
  rewrite !(append_cons ":" EmptyString), !append_nil_l.
  rewrite (split_field ":" address) by done.
  assert (Str.all_digits (stamp Date_getTime w) = true
          ∧ Str.digits_value None (stamp Date_getTime w)
            = Some (Date_getTime (clock w) / 1000)) as [Hall Hval].
  { unfold stamp, Str.of_Z.
    destruct (Z.ltb_spec (Date_getTime (clock w)) 0); [lia|].
    pose proof (slice_digits (Z.to_nat (Z.log2 (Date_getTime (clock w))))
                  (Date_getTime (clock w))) as Hs.
    simpl in Hs.
    destruct (Z.ltb_spec (Date_getTime (clock w)) 1000); [lia|].
    apply Hs. split; [lia|apply enough_fuel; lia]. }
  rewrite (split_field ":" (stamp Date_getTime w)) by (by apply all_digits_one_field).
  simpl lookup.
  destruct (stamp Date_getTime w) as [|c s]; [by inversion Hval|].
  by apply parseInt_all_digits.
Qed.

(** X5. For a clock at or after the epoch, [timestamp()] is a text of decimal
    digits that reads, as a number, the clock reading in whole seconds. *)
Theorem stamp_seconds w :
  0 <= Date_getTime (clock w) →
  Str.all_digits (stamp Date_getTime w) = true
  ∧ ToNumber (stamp Date_getTime w) = Num (Date_getTime (clock w) / 1000).
Proof. apply stamp_value. Qed.

(** X6. The challenge issued for an address without a colon carries, as its
    second field, the clock reading in whole seconds (for a clock past the
    first second of the epoch), and [parseInt] reads it back; issuing it
    moves nothing but the clock. *)
Theorem challenge_time address w :
  Str.split ":" address = [address] →
  1000 <= Date_getTime (clock w) →
  let message := Str.join ":" [address; stamp Date_getTime w; "starRegistry"%string] in
  requestMessageOwnershipVerification Date_getTime address w
  = (Resolved message, set_clock (S (clock w)) w)
  ∧ parseInt (Str.split ":" message !! 1%nat) = Num (Date_getTime (clock w) / 1000).
Proof.
  intros Haddr Ht message. split; [reflexivity|]. by apply challenge_parse.
Qed.

(** X7. Scenario C, for every pair of clock readings: a challenge issued for an
    address without a colon and submitted later is refused as late exactly
    when more than 300 whole seconds lie between the two readings. *)
Theorem challenge_window address signature star issued w :
  Str.split ":" address = [address] →
  1000 <= Date_getTime (clock issued) →
  0 <= Date_getTime (clock w) →
  let message := Str.join ":" [address; stamp Date_getTime issued; "starRegistry"%string] in
  fst (submitStar SHA256 verify Date_getTime address message signature star w)
  = Rejected expired_message
  ↔ 300 < Date_getTime (clock w) / 1000 - Date_getTime (clock issued) / 1000.
Proof.
  intros Haddr Hissued Hnow message.
  pose proof (challenge_parse address issued Haddr Hissued) as Hparse.
  destruct (stamp_value w Hnow) as [_ Hstamp].
  rewrite submitStar_cases. unfold elapsed. fold message in Hparse.
  rewrite Hparse, Hstamp. simpl js_gt. unfold VALIDATION_TIMEOUT_SECONDS.
  change (5 * 60) with 300.
  destruct (Z.ltb_spec 300
              (Date_getTime (clock w) / 1000 - Date_getTime (clock issued) / 1000))
    as [Hlate|Hin].
  - done.
  - split; [|lia]. 
    destruct (verify message address signature).
    + match goal with |- context [addNewBlock _ _ ?d ?w1] =>
        destruct (addNewBlock_effect SHA256 Date_getTime d w1) as (w' & -> & _) end.
      done.
    + simpl. intros H. by inversion H.
Qed.

End Challenge.

(** X4. Looking a record up by its hash finds a record of the chain with that
    hash, and finds nothing only when no record of the chain has it. *)
Theorem getBlockByHash_found hash w :
  ∃ found, getBlockByHash hash w = (Resolved found, w)
    ∧ match found with
      | Some l => l ∈ chain w ∧ Block.hash (deref w l) = Some hash
      | None => ∀ l, l ∈ chain w → Block.hash (deref w l) ≠ Some hash
      end.
Proof.
  eexists. split; [reflexivity|].
  destruct (List.find _ (chain w)) as [l|] eqn:E.
  - apply find_some in E as [Hin Hh]. apply bool_decide_eq_true in Hh.
    split; [by apply list_elem_of_In|done].
  - intros l Hl. apply list_elem_of_In in Hl.
    pose proof (find_none _ _ E l Hl) as Hn. simpl in Hn.
    by apply bool_decide_eq_false in Hn.
Qed.

(** ** The extra properties on the small ledger *)

Lemma all_valid SHA256 w :
  forallb id (validity SHA256 w) = true →
  ∀ x, x ∈ chain w → Block.validate SHA256 (deref w x) = true.
Proof.
  unfold validity. intros Hall x Hx.
  rewrite forallb_forall in Hall. apply (Hall (Block.validate SHA256 (deref w x))).
  apply in_map_iff. exists x. split; [done|by apply list_elem_of_In].
Qed.

Lemma chain_ok_tested : chain_ok Fixture.tested.
Proof.
  apply (chain_ok_run Fixture.digest Fixture.signed Fixture.clock_ms);
    [apply chain_ok_fresh_ledger; exact Fixture.signed|by vm_compute].
Qed.

(** The unit test's chain after the hash of "bar" was overwritten. *)
Lemma validateChain_error_log_witness :
  let w := mutate 2 (Block.set_hash (Some "00"%string)) Fixture.tested in
  ∃ log, validateChain Fixture.digest w = (Resolved log, w)
    ∧ sublist log (chain w)
    ∧ ∀ l, l ∈ log ↔
           ∃ i, chain w !! i = Some l ∧ self_invalid Fixture.digest w l ∧ link_broken w i l.
Proof.
  apply (validateChain_error_log Fixture.digest
           (mutate 2 (Block.set_hash (Some "00"%string)) Fixture.tested)).
  split; [|by vm_compute].
  intros i l Hl.
  do 4 (destruct i as [|i]; [inversion Hl; by vm_compute|]).
  vm_compute in Hl. discriminate.
Defined.

(** Scenario B: the second assertion of the unit test. *)
Lemma validateChain_overwritten_hash_witness :
  fst (validateChain Fixture.digest
         (mutate 2 (Block.set_hash (Some "00"%string)) Fixture.tested))
  = Resolved [2%nat].
Proof.
  apply (validateChain_overwritten_hash Fixture.digest Fixture.tested 2 2 3 "00").
  - exact chain_ok_tested.
  - apply all_valid. by vm_compute.
  - by vm_compute.
  - by vm_compute.
  - vm_compute. discriminate.
Defined.

Lemma getBlockByHeight_position_witness :
  getBlockByHeight 2 Fixture.tested = (Resolved (Some 2%nat), Fixture.tested)
  ∧ getBlockByHeight 4 Fixture.tested = (Resolved None, Fixture.tested).
Proof.
  split.
  - rewrite (getBlockByHeight_position Fixture.tested 2); [done|].
    apply chain_ok_tested.
  - rewrite (getBlockByHeight_position Fixture.tested 4); [done|].
    apply chain_ok_tested.
Defined.

Lemma stamp_seconds_witness :
  ToNumber (stamp Fixture.clock_ms Fixture.tested) = Num 1600000004.
Proof.
  destruct (stamp_seconds Fixture.clock_ms Fixture.tested) as [_ H]; [by vm_compute|].
  rewrite H. by vm_compute.
Defined.

Lemma challenge_time_witness :
  fst (requestMessageOwnershipVerification Fixture.clock_ms "alice" Fixture.tested)
  = Resolved (Fixture.challenge "alice" "1600000004")
  ∧ parseInt (Str.split ":" (Fixture.challenge "alice" "1600000004") !! 1%nat)
    = Num 1600000004.
Proof.
  destruct (challenge_time Fixture.clock_ms "alice" Fixture.tested) as [Hr Hp];
    [by vm_compute|by vm_compute|].
  split; [by rewrite Hr|].
  etransitivity; [exact Hp|by vm_compute].
Defined.

(** A challenge issued at the tenth reading of the clock and submitted at
    the thousandth, 990 seconds later, is refused as late. *)
Lemma challenge_window_witness :
  fst (submitStar Fixture.digest Fixture.signed Fixture.clock_ms "alice"
         (Str.join ":" [ "alice"%string;
                         stamp Fixture.clock_ms (set_clock 10 Fixture.tested);
                         "starRegistry"%string ])
         "any" (JStr "Vega") (set_clock 1000 Fixture.tested))
  = Rejected expired_message.
Proof.
  apply (challenge_window Fixture.digest Fixture.signed Fixture.clock_ms
           "alice" "any" (JStr "Vega")
           (set_clock 10 Fixture.tested) (set_clock 1000 Fixture.tested));
    by vm_compute.
Defined.


(** ** The registry, end to end *)

Section Registry.

Variable SHA256 : string -> string.
Variable verify : string -> string -> string -> bool.
Variable Date_getTime : nat -> Z.

Lemma holds_claims_same w w' claims :
  same_ledger w w' → holds_claims w claims → holds_claims w' claims.
Proof.
  intros Hsame (Hal & Hne & Hmap). pose proof Hsame as (Hh & Hc & _).
  repeat split.
  - intros l Hl. rewrite Hh. apply Hal. by rewrite <- Hc.
  - by rewrite Hc.
  - rewrite Hc, <- Hmap. apply map_ext. intros l. by rewrite (same_ledger_deref w).
Qed.

Lemma holds_claims_addNewBlock w claims owner star :
  holds_claims w claims →
  holds_claims (snd (addNewBlock SHA256 Date_getTime (claim owner star) w))
    (claims ++ [(owner, star)]).
Proof.
  intros (Hal & Hne & Hmap).
  unfold addNewBlock, bind.
  destruct (new_Block (claim owner star) w) as [r w1] eqn:E.
  unfold new_Block in E. inversion E; subst; clear E.
  set (w1 := set_heap (heap w ++ [Block.new (claim owner star)]) w).
  assert (length (heap w) < length (heap w1))%nat as Hlt
    by (simpl; rewrite length_app; simpl; lia).
  destruct (_addBlock_effect SHA256 Date_getTime w1 (length (heap w)) Hlt)
    as (w' & -> & Hc & _ & _ & _ & Hlen & Hnew & Hold).
  simpl snd. 
  assert (∀ l, l ∈ chain w → deref w' l = deref w l) as Hsame.
  { intros l Hl. apply Hal in Hl as Hl'. rewrite Hold by lia.
    change (deref w1 l) with (deref (snd (new_Block (claim owner star) w)) l).
    by apply deref_new_Block_old. }
  repeat split.
  - intros l Hl. rewrite Hlen. rewrite Hc in Hl.
    apply elem_of_app in Hl as [Hl|Hl%list_elem_of_singleton].
    + apply Hal in Hl. simpl. rewrite length_app. lia.
    + by subst.
  - rewrite Hc. by destruct (chain w1).
  - rewrite Hc. change (chain w1) with (chain w).
    destruct (chain w) as [|g rest] eqn:Ec; [done|]. simpl tail in *.
    rewrite !map_app, <- Hmap. f_equal.
    + apply map_ext_in. intros l Hl. f_equal. apply Hsame.
      apply elem_of_cons. right. by apply list_elem_of_In.
    + simpl. f_equal. unfold Block.getBData. rewrite Hnew. unfold appended.
      change (deref w1 (length (heap w)))
        with (deref (snd (new_Block (claim owner star) w)) (length (heap w))).
      rewrite deref_new_Block_new. by destruct (last (chain w1)).
Qed.

Lemma holds_claims_run w subs claims :
  holds_claims w claims →
  holds_claims (run SHA256 verify Date_getTime (map submit_call subs) w)
    (claims ++ accepted SHA256 verify Date_getTime w subs).
Proof.
  revert w claims. induction subs as [|[[[a m] sg] star] subs IH]; intros w claims Hw.
  - simpl. by rewrite app_nil_r.
  - simpl run. simpl accepted. simpl exec.
    rewrite submitStar_cases.
    destruct (js_gt _ _).
    + simpl. apply IH. eapply holds_claims_same; [|done]. by repeat split.
    + destruct (verify m a sg).
      * match goal with |- context [addNewBlock _ _ ?d ?w1] =>
          destruct (addNewBlock_effect SHA256 Date_getTime d w1) as (w' & Heq & _);
          pose proof (holds_claims_addNewBlock w1 claims a star) as Hadd
        end.
        rewrite Heq in *. simpl fst. simpl snd in *. cbv iota.
        replace (claims ++ (a, star) :: accepted SHA256 verify Date_getTime w' subs)
          with ((claims ++ [(a, star)]) ++ accepted SHA256 verify Date_getTime w' subs)
          by (by rewrite <- app_assoc).
        apply IH. apply Hadd. eapply holds_claims_same; [|done]. by repeat split.
      * simpl. apply IH. eapply holds_claims_same; [|done]. by repeat split.
Qed.

(** X8. On a new ledger, after any sequence of submissions,
    [getStarsByWalletAddress] resolves with the claims of the accepted
    submissions of that address, in the order they were made, and with
    nothing of the genesis block. *)
Theorem registry_stars_by_owner w0 subs address :
  fst (getStarsByWalletAddress address
         (run SHA256 verify Date_getTime (map submit_call subs)
            (fresh_ledger SHA256 Date_getTime w0)))
  = Resolved
      (map (fun c => claim c.1 c.2)
         (List.filter (fun c => String.eqb c.1 address)
            (accepted SHA256 verify Date_getTime
               (fresh_ledger SHA256 Date_getTime w0) subs))).
Proof.
  assert (holds_claims (fresh_ledger SHA256 Date_getTime w0) []) as Hfresh.
  { destruct (fresh_ledger_genesis SHA256 Date_getTime w0) as (Hc & _).
    split; [apply chain_ok_fresh_ledger; exact verify|].
    split; [by rewrite Hc|by rewrite Hc]. }
  apply (holds_claims_run _ subs) in Hfresh as (_ & Hne & Hmap).
  simpl app in Hmap.
  by erewrite getStars_of_claims.
Qed.

End Registry.

(** Three accepted submissions and a forged one in a registry. *)
Example registry_of_four :
  let subs :=
    [ ("alice", Fixture.challenge "alice" "1600000001",
       Fixture.signature "alice" (Fixture.challenge "alice" "1600000001"), JStr "Vega");
      ("bob", Fixture.challenge "bob" "1600000002",
       Fixture.signature "bob" (Fixture.challenge "bob" "1600000002"), JStr "Deneb");
      ("alice", Fixture.challenge "alice" "1600000003", "forged", JStr "Sirius");
      ("alice", Fixture.challenge "alice" "1600000003",
       Fixture.signature "alice" (Fixture.challenge "alice" "1600000003"), JStr "Altair")
    ]%string in
  accepted Fixture.digest Fixture.signed Fixture.clock_ms Fixture.ledger subs
  = [ ("alice", JStr "Vega"); ("bob", JStr "Deneb"); ("alice", JStr "Altair") ]%string.
Proof. by vm_compute. Qed.

(** ** What every call keeps *)

Section Keeps.

Variable SHA256 : string -> string.
Variable verify : string -> string -> string -> bool.
Variable Date_getTime : nat -> Z.

Ltac unchanged_chain := exists []; split; [by rewrite app_nil_r|simpl; lia].

Lemma exec_chain c w :
  ∃ more, chain (exec SHA256 verify Date_getTime c w) = chain w ++ more
          ∧ (length more <= 1)%nat.
Proof.
  destruct c; simpl.
  - unchanged_chain.
  - destruct (_addBlock_frame SHA256 Date_getTime w block) as (w' & -> & Hc & _).
    exists [block]. split; [done|simpl; lia].
  - destruct (Z.eq_dec (height w) (-1)) as [Heq|Hne].
    + rewrite initializeChain_genesis by done. simpl.
      destruct (addNewBlock_effect SHA256 Date_getTime (JStr "Genesis Block") w)
        as (w' & -> & Hc & _).
      eexists. split; [exact Hc|simpl; lia].
    + rewrite initializeChain_noop by done. unchanged_chain.
  - unchanged_chain.
  - unchanged_chain.
  - rewrite submitStar_cases.
    destruct (js_gt _ _); [unchanged_chain|].
    destruct (verify message address signature); [|unchanged_chain].
    match goal with |- context [addNewBlock _ _ ?d ?w1] =>
      destruct (addNewBlock_effect SHA256 Date_getTime d w1) as (w' & -> & Hc & _) end.
    eexists. split; [exact Hc|simpl; lia].
  - unchanged_chain.
  - unchanged_chain.
  - unchanged_chain.
  - unchanged_chain.
Qed.

Lemma run_chain calls w :
  chain w `prefix_of` chain (run SHA256 verify Date_getTime calls w)
  ∧ (length (chain (run SHA256 verify Date_getTime calls w))
     <= length (chain w) + length calls)%nat.
Proof.
  revert w. induction calls as [|c calls IH]; intros w.
  - split; [done|simpl; lia].
  - destruct (exec_chain c w) as (more & Hc & Hlen).
    destruct (IH (exec SHA256 verify Date_getTime c w)) as [[k Hk] Hl].
    simpl run. split.
    + exists (more ++ k). rewrite Hk, Hc. by rewrite <- app_assoc.
    + rewrite Hc, length_app in Hl. simpl. lia.
Qed.

(** X9. The chain is append-only: whatever calls are made, with whatever
    arguments, the chain they leave starts with the chain they found, in the
    same order, and has grown by at most one record per call. *)
Theorem chain_append_only calls w :
  chain w `prefix_of` chain (run SHA256 verify Date_getTime calls w)
  ∧ (length (chain (run SHA256 verify Date_getTime calls w))
     <= length (chain w) + length calls)%nat.
Proof. apply run_chain. Qed.

End Keeps.

(** ** The hash chain along a history *)

Section HashChain.

Variable SHA256 : string -> string.
Variable verify : string -> string -> string -> bool.
Variable Date_getTime : nat -> Z.

Local Abbreviation new_ledger := (fresh_ledger SHA256 Date_getTime).
Local Abbreviation history := (run SHA256 verify Date_getTime).

Lemma appended_valid w block :
  Block.hash (deref w block) = None →
  Block.validate SHA256 (appended SHA256 Date_getTime w block) = true.
Proof.
  intros Hempty. unfold Block.validate. apply bool_decide_eq_true.
  unfold appended, Block.computeHash.
  destruct (last (chain w)) as [p|]; simpl; do 3 f_equal;
    destruct (deref w block); simpl in *; by subst.
Qed.

(** The record that making a block and appending it leaves in the store. *)
Lemma addNewBlock_record data w :
  allocated w →
  ∃ w', addNewBlock SHA256 Date_getTime data w = (Resolved (length (heap w)), w')
    ∧ chain w' = chain w ++ [length (heap w)]
    ∧ height w' = height w + 1
    ∧ clock w' = S (clock w)
    ∧ verified w' = verified w
    ∧ length (heap w') = S (length (heap w))
    ∧ (∀ l, (l < length (heap w))%nat → deref w' l = deref w l)
    ∧ Block.height (deref w' (length (heap w))) = height w + 1
    ∧ Block.time (deref w' (length (heap w))) = stamp Date_getTime w
    ∧ Block.body (deref w' (length (heap w))) = data
    ∧ Block.previousBlockHash (deref w' (length (heap w)))
      = match last (chain w) with
        | Some previousBlock => Block.hash (deref w previousBlock)
        | None => None
        end
    ∧ Block.validate SHA256 (deref w' (length (heap w))) = true.
Proof.
  intros Hal. unfold addNewBlock, bind.
  destruct (new_Block data w) as [r w1] eqn:E.
  unfold new_Block in E. inversion E; subst; clear E.
  set (w1 := set_heap (heap w ++ [Block.new data]) w).
  assert (length (heap w) < length (heap w1))%nat as Hlt
    by (simpl; rewrite length_app; simpl; lia).
  assert (deref w1 (length (heap w)) = Block.new data) as Hnb.
  { change (deref w1 (length (heap w)))
      with (deref (snd (new_Block data w)) (length (heap w))).
    apply deref_new_Block_new. }
  assert (∀ l, (l < length (heap w))%nat → deref w1 l = deref w l) as Hob.
  { intros l Hl. change (deref w1 l) with (deref (snd (new_Block data w)) l).
    by apply deref_new_Block_old. }
  destruct (_addBlock_effect SHA256 Date_getTime w1 (length (heap w)) Hlt)
    as (w' & -> & Hc & Hh & Hk & Hv & Hlen & Hnew & Hold).
  exists w'. split; [done|]. do 4 (split; [done|]).
  split; [rewrite Hlen; simpl; rewrite length_app; simpl; lia|].
  split; [intros l Hl; rewrite Hold by lia; by apply Hob|].
  rewrite Hnew. split; [|split; [|split; [|split]]].
  - unfold appended. by destruct (last (chain w1)).
  - unfold appended. by destruct (last (chain w1)).
  - unfold appended. rewrite Hnb. by destruct (last (chain w1)).
  - unfold appended. change (chain w1) with (chain w).
    destruct (last (chain w)) as [p|] eqn:Ep; simpl; [|by rewrite Hnb].
    assert (p < length (heap w))%nat as Hp.
    { apply Hal. rewrite last_lookup in Ep. by eapply list_elem_of_lookup_2. }
    rewrite decide_False by lia. by rewrite Hob.
  - apply appended_valid. by rewrite Hnb.
Qed.

(** The genesis block carries no link. *)
Lemma fresh_ledger_link w0 :
  Block.previousBlockHash (deref (new_ledger w0) (length (heap w0))) = None.
Proof.
  change (new_ledger w0)
    with (snd (initializeChain SHA256 Date_getTime (set_height (-1) (set_chain [] w0)))).
  destruct (addNewBlock_record (JStr "Genesis Block") (set_height (-1) (set_chain [] w0)))
    as (w' & Heq & _ & _ & _ & _ & _ & _ & _ & _ & _ & Hp & _); [apply chain_ok_reset|].
  rewrite initializeChain_genesis, Heq by done. exact Hp.
Qed.

(** X10. On a new ledger, after any sequence of calls in which [_addBlock]
    is only given blocks that the chain does not hold yet: no block is in
    the chain twice, every record but the first carries the hash of the
    record before it, and the first record is still the genesis block, with
    no link. *)
Theorem hash_chain w0 calls :
  all_admissible SHA256 verify Date_getTime (new_ledger w0) calls = true →
  let w := history calls (new_ledger w0) in
  NoDup (chain w)
  ∧ linked w
  ∧ chain w !! 0%nat = Some (length (heap w0))
  ∧ Block.body (deref w (length (heap w0))) = JStr "Genesis Block"
  ∧ Block.previousBlockHash (deref w (length (heap w0))) = None.
Proof.
  intros Hadm w.
  assert (chain_ok (new_ledger w0)) as Hok0
    by (apply chain_ok_fresh_ledger; exact verify).
  assert (chain_ok w) as [_ Hnd _ Hlk]
    by (by apply (chain_ok_run SHA256 verify Date_getTime)).
  destruct (fresh_ledger_genesis SHA256 Date_getTime w0) as (Hc & _ & _ & Hbody).
  assert (deref w (length (heap w0)) = deref (new_ledger w0) (length (heap w0))) as Hg.
  { apply stored_run; [apply Hok0| |done].
    rewrite Hc. by apply list_elem_of_singleton. }
  split; [done|]. split; [done|]. split; [|split].
  - destruct (run_chain SHA256 verify Date_getTime calls (new_ledger w0)) as [[k Hk] _].
    unfold w. rewrite Hk, Hc. done.
  - by rewrite Hg.
  - rewrite Hg. apply fresh_ledger_link.
Qed.

Lemma valid_addNewBlock data w :
  allocated w → all_records_valid SHA256 w →
  all_records_valid SHA256 (snd (addNewBlock SHA256 Date_getTime data w)).
Proof.
  intros Hal Hv. unfold addNewBlock, bind.
  destruct (new_Block data w) as [r w1] eqn:E.
  unfold new_Block in E. inversion E; subst; clear E.
  set (w1 := set_heap (heap w ++ [Block.new data]) w).
  assert (length (heap w) < length (heap w1))%nat as Hlt
    by (simpl; rewrite length_app; simpl; lia).
  destruct (_addBlock_effect SHA256 Date_getTime w1 (length (heap w)) Hlt)
    as (w' & -> & Hc & _ & _ & _ & _ & Hnew & Hold).
  simpl snd. intros l Hl. rewrite Hc in Hl.
  apply elem_of_app in Hl as [Hl|Hl%list_elem_of_singleton].
  - apply Hal in Hl as Hlt'. rewrite Hold by lia.
    change (deref w1 l) with (deref (snd (new_Block data w)) l).
    rewrite deref_new_Block_old by done. by apply Hv.
  - subst l. rewrite Hnew. apply appended_valid.
    change (deref w1 (length (heap w)))
      with (deref (snd (new_Block data w)) (length (heap w))).
    by rewrite deref_new_Block_new.
Qed.

Lemma valid_same w w' :
  same_ledger w w' → all_records_valid SHA256 w → all_records_valid SHA256 w'.
Proof.
  intros Hsame Hv l Hl. pose proof Hsame as (_ & Hc & _).
  rewrite (same_ledger_deref w) by done. apply Hv. by rewrite <- Hc.
Qed.

Lemma valid_exec c w :
  allocated w → all_records_valid SHA256 w →
  admissible w c = true → hash_empty w c = true →
  all_records_valid SHA256 (exec SHA256 verify Date_getTime c w).
Proof.
  intros Hal Hv Hadm Hempty. destruct c; try exact Hv.
  - change (exec SHA256 verify Date_getTime (New data) w) with (snd (new_Block data w)).
    intros l Hl. change (chain (snd (new_Block data w))) with (chain w) in Hl.
    rewrite deref_new_Block_old by (by apply Hal). by apply Hv.
  - simpl in Hadm, Hempty. apply andb_prop in Hadm as [H1 H2].
    apply bool_decide_eq_true in H1, H2, Hempty.
    destruct (_addBlock_effect SHA256 Date_getTime w block H2)
      as (w' & Heq & Hc & _ & _ & _ & _ & Hnew & Hold).
    simpl exec. rewrite Heq. simpl snd. intros l Hl. rewrite Hc in Hl.
    apply elem_of_app in Hl as [Hl|Hl%list_elem_of_singleton].
    + rewrite Hold by (by intros ->). by apply Hv.
    + subst l. rewrite Hnew. by apply appended_valid.
  - simpl exec. destruct (Z.eq_dec (height w) (-1)) as [Heq|Hne].
    + rewrite initializeChain_genesis by done. by apply valid_addNewBlock.
    + by rewrite initializeChain_noop.
  - simpl exec. rewrite submitStar_cases.
    destruct (js_gt _ _); [eapply valid_same; [|done]; by repeat split|].
    destruct (verify message address signature);
      [|eapply valid_same; [|done]; by repeat split].
    apply valid_addNewBlock; [done|].
    eapply valid_same; [|done]. by repeat split.
Qed.

Lemma allocated_exec c w :
  allocated w → admissible w c = true →
  allocated (exec SHA256 verify Date_getTime c w).
Proof.
  intros Hal Hadm.
  pose proof (exec_steps SHA256 verify Date_getTime c w Hal Hadm) as Hs.
  clear Hadm. revert Hal.
  induction Hs as [|w1 w2 w3 Hs _ IH]; intros Hal; [done|].
  apply IH. by eapply allocated_step.
Qed.

(** X11. On a new ledger, after any sequence of calls in which [_addBlock]
    is only given blocks that the chain does not hold yet and whose hash is
    still empty, every record of the chain passes [validate()]: the stored
    hash is the digest of the record as it stands. *)
Theorem records_valid w0 calls :
  all_admissible SHA256 verify Date_getTime (new_ledger w0) calls = true →
  all_hash_empty SHA256 verify Date_getTime (new_ledger w0) calls = true →
  all_records_valid SHA256 (history calls (new_ledger w0)).
Proof.
  assert (allocated (new_ledger w0) ∧ all_records_valid SHA256 (new_ledger w0)) as H0.
  { split; [apply chain_ok_fresh_ledger; exact verify|].
    change (new_ledger w0)
      with (exec SHA256 verify Date_getTime InitializeChain
              (set_height (-1) (set_chain [] w0))).
    apply valid_exec; try done.
    - apply chain_ok_reset.
    - intros l Hl. simpl in Hl. by apply elem_of_nil in Hl. }
  revert H0. generalize (new_ledger w0). clear w0.
  induction calls as [|c calls IH]; intros w [Hal Hv] Hadm Hempty; [done|].
  simpl in Hadm, Hempty.
  apply andb_prop in Hadm as [Ha1 Ha2]. apply andb_prop in Hempty as [He1 He2].
  simpl. apply IH; [|done..]. split.
  - by apply allocated_exec.
  - by apply valid_exec.
Qed.

End HashChain.

(** ** An accepted submission *)

Section Accepted.

Variable SHA256 : string -> string.
Variable verify : string -> string -> string -> bool.
Variable Date_getTime : nat -> Z.

Local Abbreviation submit := (submitStar SHA256 verify Date_getTime).

Lemma stamp_clock w w' :
  clock w' = clock w → stamp Date_getTime w' = stamp Date_getTime w.
Proof. unfold stamp. by intros ->. Qed.

Lemma elapsed_clock w w' message :
  clock w' = clock w → elapsed Date_getTime w' message = elapsed Date_getTime w message.
Proof. unfold elapsed. intros H. by rewrite (stamp_clock w w'). Qed.

(** What an accepted submission leaves behind. *)
Lemma submitStar_stores address message signature star w :
  chain_ok w →
  js_gt (elapsed Date_getTime w message) VALIDATION_TIMEOUT_SECONDS = false →
  verify message address signature = true →
  ∃ w', submit address message signature star w = (Resolved (length (heap w)), w')
    ∧ chain w' = chain w ++ [length (heap w)]
    ∧ height w' = height w + 1
    ∧ clock w' = S (S (clock w))
    ∧ length (heap w') = S (length (heap w))
    ∧ (∀ l, (l < length (heap w))%nat → deref w' l = deref w l)
    ∧ Block.body (deref w' (length (heap w))) = claim address star
    ∧ Block.height (deref w' (length (heap w))) = Z.of_nat (length (chain w))
    ∧ Block.time (deref w' (length (heap w)))
      = stamp Date_getTime (set_clock (S (clock w)) w)
    ∧ Block.previousBlockHash (deref w' (length (heap w)))
      = match last (chain w) with
        | Some previousBlock => Block.hash (deref w previousBlock)
        | None => None
        end
    ∧ Block.validate SHA256 (deref w' (length (heap w))) = true
    ∧ chain_ok w'.
Proof.
  intros Hok Hin Hsig.
  pose proof (chain_ok_exec SHA256 verify Date_getTime
                (SubmitStar address message signature star) w Hok eq_refl) as Hok'.
  simpl exec in Hok'. revert Hok'.
  rewrite submitStar_cases, Hin, Hsig.
  set (w1 := set_verified _ _).
  destruct (addNewBlock_record SHA256 Date_getTime (claim address star) w1)
    as (w' & -> & Hc & Hh & Hk & _ & Hlen & Hold & Hbh & Hbt & Hbb & Hbp & Hbv);
    [apply Hok|].
  intros Hok'. exists w'. simpl in *.
  split_and!; try done.
  rewrite Hbh. destruct Hok as [_ _ [_ Hheight] _]. rewrite Hheight. lia.
Qed.

(** X12. A submission that is not late by the code's comparison (a
    challenge dated in the future, or with an unreadable time, included) and
    whose signature verifies is stored: the promise resolves with a new
    block at the end of the chain that holds the owner and the star, has the
    next height, the hash of the former last record as its link, the clock
    reading taken after the check as its time, and a hash that passes
    [validate()]; heights and links of the chain stay in order. *)
Theorem submitStar_accepted address message signature star w :
  chain_ok w →
  js_gt (elapsed Date_getTime w message) VALIDATION_TIMEOUT_SECONDS = false →
  verify message address signature = true →
  let block := length (heap w) in
  let w' := snd (submit address message signature star w) in
  fst (submit address message signature star w) = Resolved block
  ∧ chain w' = chain w ++ [block]
  ∧ Block.body (deref w' block) = claim address star
  ∧ Block.height (deref w' block) = Z.of_nat (length (chain w))
  ∧ Block.time (deref w' block) = stamp Date_getTime (set_clock (S (clock w)) w)
  ∧ Block.previousBlockHash (deref w' block)
    = match last (chain w) with
      | Some previousBlock => Block.hash (deref w previousBlock)
      | None => None
      end
  ∧ Block.validate SHA256 (deref w' block) = true
  ∧ chain_ok w'.
Proof.
  intros Hok Hin Hsig block w'.
  destruct (submitStar_stores address message signature star w Hok Hin Hsig)
    as (w2 & Heq & Hc & _ & _ & _ & _ & Hb & Hh & Ht & Hp & Hv & Hok').
  unfold w'. rewrite Heq. simpl. by split_and!.
Qed.

(** X13. The block an accepted submission stored can be looked up: by its
    height [getBlockByHeight] resolves with that block, and by its hash
    [getBlockByHash] resolves with a record of the same hash, which is that
    block when no earlier record has the hash. *)
Theorem submitStar_then_lookup address message signature star w h :
  chain_ok w →
  js_gt (elapsed Date_getTime w message) VALIDATION_TIMEOUT_SECONDS = false →
  verify message address signature = true →
  let block := length (heap w) in
  let w' := snd (submit address message signature star w) in
  Block.hash (deref w' block) = Some h →
  getBlockByHeight (Z.of_nat (length (chain w))) w' = (Resolved (Some block), w')
  ∧ ∃ found, getBlockByHash h w' = (Resolved (Some found), w')
      ∧ Block.hash (deref w' found) = Some h
      ∧ ((∀ l, l ∈ chain w → Block.hash (deref w l) ≠ Some h) → found = block).
Proof.
  intros Hok Hin Hsig block w'.
  destruct (submitStar_stores address message signature star w Hok Hin Hsig)
    as (w2 & Heq & Hc & _ & _ & _ & Hold & _ & _ & _ & _ & _ & Hok').
  unfold w'. rewrite Heq. simpl snd. clear w' Heq. intros Hh.
  split.
  - unfold getBlockByHeight, gets. do 2 f_equal.
    rewrite (find_height (fun x => Block.height (deref w2 x)) (chain w2) 0).
    + unfold Array_at. destruct (Z.ltb_spec (Z.of_nat (length (chain w)) - Z.of_nat 0) 0);
        [lia|].
      replace (Z.to_nat (Z.of_nat (length (chain w)) - Z.of_nat 0)) with (length (chain w))
        by lia.
      rewrite Hc. by rewrite list_lookup_middle.
    + intros i x Hx. destruct Hok' as [_ _ [Hhs _] _]. by apply Hhs.
  - unfold getBlockByHash, gets.
    destruct (List.find _ (chain w2)) as [found|] eqn:E.
    + exists found. split; [done|].
      pose proof E as E'. apply find_some in E as [Hin' Hf].
      apply bool_decide_eq_true in Hf. split; [done|].
      intros Hnone. apply list_elem_of_In in Hin'. rewrite Hc in Hin'.
      apply elem_of_app in Hin' as [Hl|Hl%list_elem_of_singleton]; [|done].
      exfalso. apply (Hnone found Hl).
      rewrite <- Hold; [done|]. destruct Hok as [Hal _ _ _]. by apply Hal.
    + exfalso. pose proof (find_none _ _ E block) as Hn.
      simpl in Hn. rewrite bool_decide_eq_false in Hn. apply Hn; [|done].
      apply list_elem_of_In. rewrite Hc. apply elem_of_app. right.
      by apply list_elem_of_singleton.
Qed.

(** X14. Nothing marks a challenge as used: a submission that was accepted
    is accepted again, with the same challenge and signature, as long as the
    challenge is not late at the second call, and the chain then holds the
    claim twice. *)
Theorem submitStar_replay address message signature star w :
  chain_ok w →
  verify message address signature = true →
  js_gt (elapsed Date_getTime w message) VALIDATION_TIMEOUT_SECONDS = false →
  js_gt (elapsed Date_getTime (set_clock (S (S (clock w))) w) message)
    VALIDATION_TIMEOUT_SECONDS = false →
  let first := length (heap w) in
  let w1 := snd (submit address message signature star w) in
  let w2 := snd (submit address message signature star w1) in
  fst (submit address message signature star w) = Resolved first
  ∧ fst (submit address message signature star w1) = Resolved (S first)
  ∧ chain w2 = chain w ++ [first; S first]
  ∧ Block.body (deref w2 first) = claim address star
  ∧ Block.body (deref w2 (S first)) = claim address star.
Proof.
  intros Hok Hsig Hin1 Hin2 first w1 w2.
  destruct (submitStar_stores address message signature star w Hok Hin1 Hsig)
    as (wa & Heq1 & Hc1 & _ & Hk1 & Hlen1 & _ & Hb1 & _ & _ & _ & _ & Hok1).
  assert (w1 = wa) as -> by (unfold w1; by rewrite Heq1).
  assert (js_gt (elapsed Date_getTime wa message) VALIDATION_TIMEOUT_SECONDS = false)
    as Hin2' by (by rewrite (elapsed_clock (set_clock (S (S (clock w))) w) wa)).
  destruct (submitStar_stores address message signature star wa Hok1 Hin2' Hsig)
    as (wb & Heq2 & Hc2 & _ & _ & _ & Hold2 & Hb2 & _).
  assert (w2 = wb) as -> by (unfold w2; by rewrite Heq2).
  rewrite Heq1, Heq2. simpl fst. rewrite Hlen1 in *.
  split; [done|]. split; [done|]. split; [|split].
  - rewrite Hc2, Hc1. by rewrite <- app_assoc.
  - rewrite Hold2 by (unfold first; lia). exact Hb1.
  - exact Hb2.
Qed.

End Accepted.

(** ** Counting the accepted submissions *)

Section Counting.

Variable SHA256 : string -> string.
Variable verify : string -> string -> string -> bool.
Variable Date_getTime : nat -> Z.

Lemma submissions_admissible subs w :
  all_admissible SHA256 verify Date_getTime w (map submit_call subs) = true.
Proof.
  revert w. induction subs as [|[[[a m] sg] star] subs IH]; intros w; [done|].
  simpl. apply IH.
Qed.

(** X15. On a new ledger, after any sequence of submissions,
    [getChainHeight] resolves with the number of submissions that were
    accepted: the genesis block is height 0 and every accepted star adds
    one, a refused one nothing. *)
Theorem getChainHeight_counts w0 subs :
  fst (getChainHeight
         (run SHA256 verify Date_getTime (map submit_call subs)
            (fresh_ledger SHA256 Date_getTime w0)))
  = Resolved
      (Z.of_nat (length (accepted SHA256 verify Date_getTime
                           (fresh_ledger SHA256 Date_getTime w0) subs))).
Proof.
  set (w := run _ _ _ _ _).
  assert (chain_ok w) as [_ _ [_ Hheight] _].
  { apply chain_ok_run; [apply chain_ok_fresh_ledger; exact verify|].
    apply submissions_admissible. }
  assert (holds_claims (fresh_ledger SHA256 Date_getTime w0) []) as Hfresh.
  { destruct (fresh_ledger_genesis SHA256 Date_getTime w0) as (Hc & _).
    split; [apply chain_ok_fresh_ledger; exact verify|].
    split; [by rewrite Hc|by rewrite Hc]. }
  apply (holds_claims_run SHA256 verify Date_getTime _ subs) in Hfresh
    as (_ & Hne & Hmap).
  fold w in Hne, Hmap. simpl app in Hmap.
  apply (f_equal length) in Hmap. rewrite !length_map in Hmap.
  unfold getChainHeight, gets. simpl. f_equal. rewrite Hheight, <- Hmap.
  destruct (chain w); [done|]. simpl. lia.
Qed.

End Counting.

(** ** A wallet address with a colon *)

Lemma split_app sep a r :
  Str.split sep (a +:+ String sep r) = Str.split sep a ++ Str.split sep r.
Proof.
  induction a as [|c a IH].
  - rewrite append_nil_l. simpl. by rewrite Ascii.eqb_refl.
  - rewrite append_cons. simpl.
    destruct (Ascii.eqb c sep); [by rewrite IH|].
    rewrite IH.
    destruct (Str.split sep a) as [|f fs] eqn:Ef; [by apply split_nonempty in Ef|].
    done.
Qed.

Section ColonAddress.

Variable Date_getTime : nat -> Z.

(** X16. The challenge is the address, the time and the registry's name
    joined by colons, and [submitStar] takes the second field for the time:
    for an address that has a colon in it, that field is the second field of
    the address, whatever the clock said, so the age [submitStar] computes
    for the challenge is measured from a number the wallet address fixes. *)
Theorem challenge_colon_address address field w :
  Str.split ":" address !! 1%nat = Some field →
  ∃ message,
    requestMessageOwnershipVerification Date_getTime address w
    = (Resolved message, set_clock (S (clock w)) w)
    ∧ Str.split ":" message !! 1%nat = Some field
    ∧ ∀ w', elapsed Date_getTime w' message
            = js_sub (ToNumber (stamp Date_getTime w')) (parseInt (Some field)).
Proof.
  intros Hfield.
  exists (Str.join ":" [address; stamp Date_getTime w; "starRegistry"%string]).
  split; [reflexivity|].
  assert (Str.split ":"
            (Str.join ":" [address; stamp Date_getTime w; "starRegistry"%string])
          !! 1%nat = Some field) as Hsplit.
  { cbv [Str.join].
    rewrite !(append_cons ":" EmptyString), !append_nil_l.
    rewrite split_app. by apply lookup_app_l_Some. }
  split; [exact Hsplit|].
  intros w'. unfold elapsed. by rewrite Hsplit.
Qed.

End ColonAddress.

(** ** The properties of the chain on the small ledger *)

(** The unit test's calls on a new ledger. *)
Lemma hash_chain_witness :
  let w := Fixture.tested in
  NoDup (chain w) ∧ linked w ∧ chain w !! 0%nat = Some 0%nat
  ∧ Block.body (deref w 0) = JStr "Genesis Block"
  ∧ Block.previousBlockHash (deref w 0) = None.
Proof.
  apply (hash_chain Fixture.digest Fixture.signed Fixture.clock_ms
           Fixture.empty Fixture.foo_bar_qux).
  vm_compute; reflexivity.
Defined.

(** The unit test's calls and a submitted star: every block handed to
    [_addBlock] is new. *)
Lemma records_valid_witness :
  all_records_valid Fixture.digest
    (run Fixture.digest Fixture.signed Fixture.clock_ms
       (Fixture.foo_bar_qux ++ [Fixture.submission "alice" "1600000004" (JStr "Vega")])
       (fresh_ledger Fixture.digest Fixture.clock_ms Fixture.empty)).
Proof.
  apply (records_valid Fixture.digest Fixture.signed Fixture.clock_ms Fixture.empty
           (Fixture.foo_bar_qux ++ [Fixture.submission "alice" "1600000004" (JStr "Vega")]));
    vm_compute; reflexivity.
Defined.

(** A star submitted to the unit test's chain, on a challenge issued one
    second before. *)
Lemma submitStar_accepted_witness :
  let message := Fixture.challenge "alice" "1600000003" in
  let r := submitStar Fixture.digest Fixture.signed Fixture.clock_ms
             "alice" message (Fixture.signature "alice" message) (JStr "Vega")
             Fixture.tested in
  fst r = Resolved 4%nat
  ∧ chain (snd r) = [0; 1; 2; 3; 4]%nat
  ∧ Block.body (deref (snd r) 4) = claim "alice" (JStr "Vega")
  ∧ Block.height (deref (snd r) 4) = 4
  ∧ Block.validate Fixture.digest (deref (snd r) 4) = true.
Proof.
  destruct (submitStar_accepted Fixture.digest Fixture.signed Fixture.clock_ms
              "alice" (Fixture.challenge "alice" "1600000003")
              (Fixture.signature "alice" (Fixture.challenge "alice" "1600000003"))
              (JStr "Vega") Fixture.tested)
    as (Hr & Hc & Hb & Hh & _ & _ & Hv & _);
    [exact chain_ok_tested|vm_compute; reflexivity..|].
  split; [exact Hr|]. split; [exact Hc|]. split; [exact Hb|].
  split; [exact Hh|exact Hv].
Defined.

(** The same star, looked up by its height and by the hash it was given. *)
Lemma submitStar_then_lookup_witness :
  let message := Fixture.challenge "alice" "1600000003" in
  let w' := snd (submitStar Fixture.digest Fixture.signed Fixture.clock_ms
                   "alice" message (Fixture.signature "alice" message) (JStr "Vega")
                   Fixture.tested) in
  ∃ h, Block.hash (deref w' 4) = Some h
    ∧ getBlockByHeight 4 w' = (Resolved (Some 4%nat), w')
    ∧ ∃ found, getBlockByHash h w' = (Resolved (Some found), w')
        ∧ Block.hash (deref w' found) = Some h.
Proof.
  intros message w'.
  destruct (Block.hash (deref w' 4)) as [h|] eqn:E; [|vm_compute in E; discriminate].
  exists h. split; [done|].
  destruct (submitStar_then_lookup Fixture.digest Fixture.signed Fixture.clock_ms
              "alice" (Fixture.challenge "alice" "1600000003")
              (Fixture.signature "alice" (Fixture.challenge "alice" "1600000003"))
              (JStr "Vega") Fixture.tested h)
    as (Hh & found & Hf & Hfh & _);
    [exact chain_ok_tested|vm_compute; reflexivity..|exact E|].
  split; [exact Hh|]. exists found. by split.
Defined.

(** One challenge, submitted twice with the same star. *)
Lemma submitStar_replay_witness :
  let message := Fixture.challenge "alice" "1600000003" in
  let signature := Fixture.signature "alice" message in
  let w1 := snd (submitStar Fixture.digest Fixture.signed Fixture.clock_ms
                   "alice" message signature (JStr "Vega") Fixture.tested) in
  let w2 := snd (submitStar Fixture.digest Fixture.signed Fixture.clock_ms
                   "alice" message signature (JStr "Vega") w1) in
  chain w2 = [0; 1; 2; 3; 4; 5]%nat
  ∧ Block.body (deref w2 4) = claim "alice" (JStr "Vega")
  ∧ Block.body (deref w2 5) = claim "alice" (JStr "Vega").
Proof.
  destruct (submitStar_replay Fixture.digest Fixture.signed Fixture.clock_ms
              "alice" (Fixture.challenge "alice" "1600000003")
              (Fixture.signature "alice" (Fixture.challenge "alice" "1600000003"))
              (JStr "Vega") Fixture.tested)
    as (_ & _ & Hc & Hb1 & Hb2);
    [exact chain_ok_tested|vm_compute; reflexivity..|].
  split; [exact Hc|]. split; [exact Hb1|exact Hb2].
Defined.

(** A wallet address with a colon: the time field of its challenge is the
    rest of the address. *)
Lemma challenge_colon_address_witness :
  ∃ message,
    requestMessageOwnershipVerification Fixture.clock_ms "my:wallet" Fixture.tested
    = (Resolved message, set_clock 5 Fixture.tested)
    ∧ Str.split ":" message !! 1%nat = Some "wallet"%string.
Proof.
  destruct (challenge_colon_address Fixture.clock_ms "my:wallet" "wallet" Fixture.tested)
    as (message & Hr & Hf & _); [vm_compute; reflexivity|].
  exists message. split; [exact Hr|exact Hf].
Defined.
